(** * ConfigX: the configuration tree ([configx.core.tree])

    A shallow embedding of [ConfigTree] (src/configx/core/tree.py) and of the
    parts of [Node] it relies on, together with the properties of the
    hierarchical store: path normalisation, traversal with on-demand
    creation, [set] / [get] / [delete], the nested-mapping projection and the
    persistence round trip.

    Python objects are mutable and shared by reference.  The tree owns its
    nodes exclusively (no node is reachable along two paths), so a node
    reference is modelled by its address, the list of child names leading to
    it from the root, and mutation through a reference by a functional update
    at that address.  Exceptions are modelled by an error type; the monad
    keeps the tree that the failing call leaves behind. *)

From Stdlib Require Import String Ascii List NArith ZArith Bool Lia.
From Stdlib.Strings Require Import Byte.
Import ListNotations.
Local Open Scope string_scope.
Local Open Scope list_scope.

Set Implicit Arguments.
Set Warnings "-register-all".

(** ** Python strings: [str.strip], [str.split], [str.join]

    A Python [str] is a sequence of Unicode characters.  It is carried here
    as its UTF-8 encoding: a string is a sequence of bytes and a character
    is one to four of them (NO-BREAK SPACE, U+00A0, is the two bytes 194 160).
    Splitting at the dot, joining, comparing and testing for emptiness act
    on the encoding as they do on the characters; stripping has to know
    which byte sequences are white-space characters. *)

Module PyStr.

(** The characters for which [str.isspace] holds, by the length of their
    encoding.  One byte: TAB, LF, VT, FF, CR (9 to 13), the separators FS,
    GS, RS, US (28 to 31) and SPACE (32). *)
Definition space1 (c : ascii) : bool :=
  let n := nat_of_ascii c in
  (((9 <=? n) && (n <=? 13)) || ((28 <=? n) && (n <=? 32)))%nat%bool.

(** Two bytes: U+0085 (194 133) and U+00A0 (194 160). *)
Definition space2 (c d : ascii) : bool :=
  ((nat_of_ascii c =? 194) &&
   ((nat_of_ascii d =? 133) || (nat_of_ascii d =? 160)))%nat%bool.

(** Three bytes: U+1680 (225 154 128); U+2000 to U+200A (226 128 128 to
    226 128 138); U+2028, U+2029 and U+202F (226 128 168, 169 and 175);
    U+205F (226 129 159); U+3000 (227 128 128). *)
Definition space3 (c d e : ascii) : bool :=
  let x := nat_of_ascii c in
  let y := nat_of_ascii d in
  let z := nat_of_ascii e in
  (((x =? 225) && (y =? 154) && (z =? 128)) ||
   ((x =? 226) && (y =? 128) &&
    (((128 <=? z) && (z <=? 138)) || (z =? 168) || (z =? 169) || (z =? 175))) ||
   ((x =? 226) && (y =? 129) && (z =? 159)) ||
   ((x =? 227) && (y =? 128) && (z =? 128)))%nat%bool.

(** [s.lstrip()]: the white-space characters at the front are dropped. *)
Fixpoint lstrip (s : string) : string :=
  match s with
  | EmptyString => s
  | String c r =>
      if space1 c then lstrip r
      else
        match r with
        | EmptyString => s
        | String d r2 =>
            if space2 c d then lstrip r2
            else
              match r2 with
              | EmptyString => s
              | String e r3 => if space3 c d e then lstrip r3 else s
              end
        end
  end.

(** The string consists of white-space characters only (or is empty). *)
Definition all_space (s : string) : bool :=
  match lstrip s with EmptyString => true | _ => false end.

(** [s.rstrip()]: the longest tail made of white-space characters is
    dropped. *)
Fixpoint rstrip (s : string) : string :=
  match s with
  | EmptyString => EmptyString
  | String c r => if all_space s then EmptyString else String c (rstrip r)
  end.

(** [s.strip()] *)
Definition strip (s : string) : string := rstrip (lstrip s).

(** The encodings of the white-space characters, one string each. *)
Definition space_chars : list string :=
  map (fun n => String (ascii_of_nat n) EmptyString)
      [9; 10; 11; 12; 13; 28; 29; 30; 31; 32] ++
  map (fun d => String (ascii_of_nat 194) (String (ascii_of_nat d) EmptyString))
      [133; 160] ++
  map (fun cde => let '(c, d, e) := cde in
                  String (ascii_of_nat c)
                    (String (ascii_of_nat d)
                       (String (ascii_of_nat e) EmptyString)))
      [(225, 154, 128);
       (226, 128, 128); (226, 128, 129); (226, 128, 130); (226, 128, 131);
       (226, 128, 132); (226, 128, 133); (226, 128, 134); (226, 128, 135);
       (226, 128, 136); (226, 128, 137); (226, 128, 138);
       (226, 128, 168); (226, 128, 169); (226, 128, 175);
       (226, 129, 159); (227, 128, 128)].

(** [s.split(sep)] for a one-character separator: never the empty list. *)
Fixpoint split (sep : ascii) (s : string) : list string :=
  match s with
  | EmptyString => [EmptyString]
  | String c r =>
      if Ascii.eqb c sep then EmptyString :: split sep r
      else match split sep r with
           | h :: t => String c h :: t
           | [] => [String c EmptyString]
           end
  end.

(** [sep.join(parts)] *)
Definition join (sep : string) (parts : list string) : string :=
  String.concat sep parts.

(** Truthiness of a string: [if s]. *)
Definition truthy (s : string) : bool :=
  match s with EmptyString => false | _ => true end.

End PyStr.

(** ** Python dicts with string keys

    An association list in insertion order, with at most one entry per key
    under the operations below. *)

Module PyDict.
Section Dict.
Variable V : Type.

Definition t := list (string * V).

(** [d.get(k)] / [d[k]] *)
Fixpoint get (k : string) (d : t) : option V :=
  match d with
  | [] => None
  | (k', v) :: r => if String.eqb k k' then Some v else get k r
  end.

(** [k in d] *)
Definition mem (k : string) (d : t) : bool :=
  match get k d with Some _ => true | None => false end.

(** [d[k] = v]: an existing key keeps its position, a new key goes last. *)
Fixpoint set (k : string) (v : V) (d : t) : t :=
  match d with
  | [] => [(k, v)]
  | (k', v') :: r =>
      if String.eqb k k' then (k', v) :: r else (k', v') :: set k v r
  end.

(** [d.pop(k)] (the dict that is left) *)
Fixpoint pop (k : string) (d : t) : t :=
  match d with
  | [] => []
  | (k', v') :: r =>
      if String.eqb k k' then pop k r else (k', v') :: pop k r
  end.

Definition keys (d : t) : list string := map fst d.
End Dict.
End PyDict.

(** ** Scalars, type tags and primitives *)

(** A floating-point number is carried as an opaque payload (its IEEE-754
    binary64 bit pattern); the tree never computes with it. *)
Inductive scalar : Type :=
| SStr (s : string)
| SInt (z : Z)
| SFloat (bits : Z)
| SBool (b : bool)
| SNull.

Inductive type_tag : Type := TStr | TInt | TFloat | TBool | TNull.

(** Keys of a Python mapping handed to [load_dict]: strings, or anything else
    hashable (an integer stands for the non-string keys). *)
Inductive pykey : Type :=
| KStr (s : string)
| KInt (z : Z).

(** Primitive values: what [to_primitive] / [to_dict] return and what
    [from_primitive] / [load_dict] accept. *)
Inductive prim : Type :=
| PScalar (s : scalar)
| PDict (items : list (pykey * prim)).

(** ** Errors ([configx.core.errors], and the codec's format error) *)

Inductive error : Type :=
| ConfigPathNotFoundError (path : string)
| ConfigInvalidPathError (path : string) (msg : string)
| ConfigStrictModeError (path : string)
| ConfigNodeStructureError (path : string) (msg : string)
| ConfigInvalidFormatError (msg : string)
| FormatError (msg : string) (* raised by the persistence codec *).

Inductive result (A : Type) : Type :=
| OK (a : A)
| Raise (e : error).
Arguments OK {A} a.
Arguments Raise {A} e.

(** ** Node *)

(** Modelled from the spec: the class [Node] of configx/core/node.py, of which
    tree.py uses the constructor [Node(name=...)], the attributes [children],
    [value] and [type], and the methods [infer_type], [to_primitive] and
    [from_primitive].  [value] is [None] while no scalar has been assigned
    ("unset/absent"); [type] is the tag inferred at assignment time. *)
Inductive Node : Type :=
  mkNode { name : string;
           children : list (string * Node);
           value : option scalar;
           type : option type_tag }.

(** [Node(name=n)]: an empty interior node. *)
Definition Node_init (n : string) : Node := mkNode n [] None None.

(** Modelled from the spec: [Node.infer_type], "boolean before integer,
    otherwise integer, floating-point, string, or null", each by the scalar's
    intrinsic kind. *)
Definition infer_type (v : scalar) : type_tag :=
  match v with
  | SBool _ => TBool
  | SInt _ => TInt
  | SFloat _ => TFloat
  | SStr _ => TStr
  | SNull => TNull
  end.

(** Modelled from the spec: [Node.to_primitive], "a scalar for a leaf, or a
    nested mapping (recursively built from children's own primitive
    projections) for an interior node.  An interior node with no children
    projects to an empty mapping." *)
Fixpoint to_primitive (n : Node) : prim :=
  match children n with
  | [] => match value n with
          | Some v => PScalar v
          | None => PDict []
          end
  | cs => PDict (map (fun kc => (KStr (fst kc), to_primitive (snd kc))) cs)
  end.

(** The loop of [from_primitive] over [data.items()]: each value is converted
    by [conv] and stored under its key; a key that is not a string fails. *)
Fixpoint build_children (conv : string -> prim -> result Node)
         (items : list (pykey * prim)) (acc : list (string * Node))
  : result (list (string * Node)) :=
  match items with
  | [] => OK acc
  | (KStr k, v) :: r =>
      match conv k v with
      | OK c => build_children conv r (PyDict.set k c acc)
      | Raise e => Raise e
      end
  | (KInt _, _) :: _ =>
      Raise (ConfigInvalidFormatError "All keys must be strings.")
  end.

(** Modelled from the spec: [Node.from_primitive(name, data)], "scalars become
    leaf nodes with inferred type; nested mappings become interior nodes
    recursively built the same way"; a non-string key at any depth fails with
    [InvalidFormat]. *)
Fixpoint from_primitive (nm : string) (data : prim) : result Node :=
  match data with
  | PScalar v => OK (mkNode nm [] (Some v) (Some (infer_type v)))
  | PDict items =>
      match build_children from_primitive items [] with
      | OK cs => OK (mkNode nm cs None None)
      | Raise e => Raise e
      end
  end.

(** ** References into the tree *)

(** A reference to a node: its address below the node the walk started from,
    and the node as it is when the reference is handed out. *)
Record NodeRef : Type := mkRef { addr : list string; target : Node }.

(** The node at an address. *)
Fixpoint deref (a : list string) (n : Node) : option Node :=
  match a with
  | [] => Some n
  | k :: r => match PyDict.get k (children n) with
              | Some c => deref r c
              | None => None
              end
  end.

(** [n.children[k] = c] *)
Definition with_child (n : Node) (k : string) (c : Node) : Node :=
  mkNode (name n) (PyDict.set k c (children n)) (value n) (type n).

(** Mutation of the node at an address (no effect on a dangling address). *)
Fixpoint update (a : list string) (f : Node -> Node) (n : Node) : Node :=
  match a with
  | [] => f n
  | k :: r => match PyDict.get k (children n) with
              | Some c => with_child n k (update r f c)
              | None => n
              end
  end.

Definition under (k : string) (r : result (option NodeRef))
  : result (option NodeRef) :=
  match r with
  | OK (Some x) => OK (Some (mkRef (k :: addr x) (target x)))
  | other => other
  end.

(** ** ConfigTree *)

Record ConfigTree : Type :=
  mkTree { root : Node; strict_mode : bool }.

(** [ConfigTree(strict_mode)] *)
Definition ConfigTree_init (strict : bool) : ConfigTree :=
  mkTree (Node_init "root") strict.

(** Computations on a tree that may raise: the tree is threaded through, and
    a raised error comes with the tree as the call left it. *)
Definition M (A : Type) : Type := ConfigTree -> result A * ConfigTree.

Definition ret {A} (a : A) : M A := fun t => (OK a, t).
Definition raise {A} (e : error) : M A := fun t => (Raise e, t).
Definition bind {A B} (m : M A) (k : A -> M B) : M B :=
  fun t => match m t with
           | (OK a, t') => k a t'
           | (Raise e, t') => (Raise e, t')
           end.
Definition lift {A} (r : result A) : M A := fun t => (r, t).
Definition get_root : M Node := fun t => (OK (root t), t).
Definition put_root (n : Node) : M unit :=
  fun t => (OK tt, mkTree n (strict_mode t)).
Definition get_strict : M bool := fun t => (OK (strict_mode t), t).

Declare Scope cfg_scope.
Delimit Scope cfg_scope with cfg.
Notation "x <- m ;; k" := (bind m (fun x => k))
  (at level 61, m at next level, right associativity) : cfg_scope.
Notation "m ;;; k" := (bind m (fun _ => k))
  (at level 61, right associativity) : cfg_scope.
Local Open Scope cfg_scope.

(** [_split(path)]; [None] is Python's [None]. *)
Definition _split (path : option string) : result (list string) :=
  match path with
  | None => Raise (ConfigInvalidPathError "None" "Path cannot be None.")
  | Some p =>
      let parts :=
        filter PyStr.truthy (PyStr.split "."%char (PyStr.strip p)) in
      if (length parts =? 0)%nat
      then Raise (ConfigInvalidPathError p "Path cannot be empty.")
      else OK parts
  end.

(** The loop of [_walk], from [node] over the remaining [parts].  It returns
    the node as the loop leaves it, and what the loop produces: a reference
    to the node reached, [None], or the error raised. *)
Fixpoint walk_loop (strict create : bool) (path : string)
         (parts : list string) (node : Node)
  : Node * result (option NodeRef) :=
  match parts with
  | [] => (node, OK (Some (mkRef [] node)))
  | part :: rest =>
      match PyDict.get part (children node) with
      | Some child =>
          let '(child', r) := walk_loop strict create path rest child in
          (with_child node part child', under part r)
      | None =>
          if create then
            if strict then (node, Raise (ConfigStrictModeError path))
            else
              let '(new_node, r) :=
                walk_loop strict create path rest (Node_init part) in
              (with_child node part new_node, under part r)
          else (node, OK None)
      end
  end.

(** [str(path)] for a path handed to an error. *)
Definition pstr (path : option string) : string :=
  match path with Some p => p | None => "None" end.

(** [_walk(path, create_missing)] *)
Definition _walk (path : option string) (create_missing : bool)
  : M (option NodeRef) :=
  parts <- lift (_split path) ;;
  node <- get_root ;;
  strict <- get_strict ;;
  let '(node', r) :=
    walk_loop strict create_missing (pstr path) parts node in
  put_root node' ;;;
  lift r.

(** Mutation of the node a reference points to. *)
Definition modify (r : NodeRef) (f : Node -> Node) : M unit :=
  fun t => (OK tt, mkTree (update (addr r) f (root t)) (strict_mode t)).

(** [get(path)] *)
Definition get (path : option string) : M prim :=
  node <- _walk path false ;;
  match node with
  | None => raise (ConfigPathNotFoundError (pstr path))
  | Some r => ret (to_primitive (target r))
  end.

(** The three assignments that end [set]:
    [node.value = value], [node.type = Node.infer_type(value)],
    [node.children = {}]. *)
Definition assign_leaf (v : scalar) (n : Node) : Node :=
  let n1 := mkNode (name n) (children n) (Some v) (type n) in
  let n2 := mkNode (name n1) (children n1) (value n1) (Some (infer_type v)) in
  mkNode (name n2) [] (value n2) (type n2).

(** [set(path, value)] *)
Definition set (path : option string) (v : scalar) : M scalar :=
  parts <- lift (_split path) ;;
  (if (length parts =? 0)%nat
   then raise (ConfigInvalidPathError (pstr path) "Empty path is not allowed.")
   else ret tt) ;;;
  node <- _walk path true ;;
  match node with
  | None => raise (ConfigPathNotFoundError (pstr path))
  | Some r =>
      if (0 <? length (children (target r)))%nat
      then raise (ConfigNodeStructureError (pstr path)
                    "Cannot assign value to an interior node; it has children.")
      else modify r (assign_leaf v) ;;; ret v
  end.

(** [parent.children.pop(key)] *)
Definition pop_child (key : string) (n : Node) : Node :=
  mkNode (name n) (PyDict.pop key (children n)) (value n) (type n).

(** [delete(path)] *)
Definition delete (path : option string) : M bool :=
  parts <- lift (_split path) ;;
  (if ((length parts =? 1)%nat && String.eqb (hd "" parts) "root")%bool
   then raise (ConfigNodeStructureError (pstr path) "Cannot delete root node.")
   else ret tt) ;;;
  let parent_path := PyStr.join "." (removelast parts) in
  parent <- (if PyStr.truthy parent_path
             then _walk (Some parent_path) false
             else (r <- get_root ;; ret (Some (mkRef [] r)))) ;;
  match parent with
  | None => ret false
  | Some r =>
      let key := last parts "" in
      if negb (PyDict.mem key (children (target r)))
      then ret false
      else modify r (pop_child key) ;;; ret true
  end.

(** [to_dict()] *)
Definition to_dict : M prim :=
  r <- get_root ;;
  ret (match children r with
       | [] => PDict []
       | _ => to_primitive r
       end).

(** The loop of [load_dict] over [data.items()]. *)
Fixpoint load_items (items : list (pykey * prim)) : M unit :=
  match items with
  | [] => ret tt
  | (key, v) :: rest =>
      match key with
      | KInt _ => raise (ConfigInvalidFormatError "All keys must be strings.")
      | KStr k =>
          c <- lift (from_primitive k v) ;;
          r <- get_root ;;
          put_root (with_child r k c) ;;;
          load_items rest
      end
  end.

(** [load_dict(data)] *)
Definition load_dict (data : prim) : M unit :=
  match data with
  | PScalar _ =>
      raise (ConfigInvalidFormatError "Top-level configuration must be a dict.")
  | PDict items =>
      put_root (Node_init "root") ;;;
      load_items items
  end.

(** [set_strict_mode(enabled)] *)
Definition set_strict_mode (enabled : bool) : M unit :=
  fun t => (OK tt, mkTree (root t) enabled).

(** Running a computation: the outcome, and the tree afterwards. *)
Definition outcome {A} (m : M A) (t : ConfigTree) : result A := fst (m t).
Definition after {A} (m : M A) (t : ConfigTree) : ConfigTree := snd (m t).

(** ** The invariants *)

(** Mutual exclusion at one node: children and a scalar value never together. *)
Definition node_ok (n : Node) : bool :=
  match children n, value n with
  | _ :: _, Some _ => false
  | _, _ => true
  end.

(** Mutual exclusion at every node of a subtree. *)
Fixpoint mutex (n : Node) : bool :=
  node_ok n && forallb (fun kc => mutex (snd kc)) (children n).

(** A Python dict holds a key once: the child names of every node are
    pairwise distinct. *)
Inductive wf : Node -> Prop :=
| wf_node : forall n,
    NoDup (PyDict.keys (children n)) ->
    (forall k c, In (k, c) (children n) -> wf c) ->
    wf n.

(** ** Binary persistence *)

Section Persistence.

(** Modelled from the spec: the binary codec, an external collaborator that
    "exposes [save(tree_mapping, destination)] and [load(source) ->
    tree_mapping | FormatError]".  The destination and the source are the
    bytes written and read. *)
Variable codec_save : prim -> list byte.
Variable codec_load : list byte -> result prim.

(** Modelled from the spec: [ConfigTree.save_to_bin], which hands the tree's
    mapping form to the codec. *)
Definition save_to_bin : M (list byte) :=
  m <- to_dict ;;
  ret (codec_save m).

(** Modelled from the spec: [ConfigTree.load_from_bin], which has the codec
    decode the source and loads the mapping; a codec error is "surfaced
    unchanged" and the tree is "left unmodified on load failure". *)
Definition load_from_bin (source : list byte) : M unit :=
  m <- lift (codec_load source) ;;
  load_dict m.

End Persistence.

(** *** The codec

    Modelled from the spec: the binary codec [save] / [load], whose byte
    layout the spec leaves to the implementer ("length-prefixed tagged
    scalars recommended") under the contract that every scalar's kind is
    recovered exactly and that a truncated or malformed source is rejected.
    The layout taken here: a natural number is a base-128 varint (seven bits
    a byte, least significant first, the high bit set on all bytes but the
    last); a value is one tag byte followed by nothing (null), one byte
    (boolean), a sign byte and the magnitude (integer; the payload of a
    float likewise), the length and the bytes (string), or the count and the
    entries, each a tagged key and a value (mapping). *)

Module Codec.

Definition byte_of_N (n : N) : byte :=
  match Byte.of_N n with Some b => b | None => x00 end.

(** The varint of [n]; [fuel] bounds the number of continuation bytes. *)
Fixpoint enc_nat_fuel (fuel : nat) (n : N) : list byte :=
  match fuel with
  | O => [byte_of_N n]
  | S f =>
      if (n <? 128)%N then [byte_of_N n]
      else byte_of_N (128 + n mod 128) :: enc_nat_fuel f (n / 128)
  end.

Definition enc_nat (n : N) : list byte :=
  enc_nat_fuel (N.to_nat (N.log2 n)) n.

Fixpoint dec_nat (bs : list byte) : option (N * list byte) :=
  match bs with
  | [] => None
  | b :: r =>
      let x := Byte.to_N b in
      if (x <? 128)%N then Some (x, r)
      else match dec_nat r with
           | Some (n, rest) => Some ((x - 128 + 128 * n)%N, rest)
           | None => None
           end
  end.

Definition enc_Z (z : Z) : list byte :=
  (if (z <? 0)%Z then x01 else x00) :: enc_nat (Z.abs_N z).

Definition dec_Z (bs : list byte) : option (Z * list byte) :=
  match bs with
  | x00 :: r =>
      match dec_nat r with
      | Some (n, rest) => Some (Z.of_N n, rest)
      | None => None
      end
  | x01 :: r =>
      match dec_nat r with
      | Some (n, rest) => Some ((- Z.of_N n)%Z, rest)
      | None => None
      end
  | _ => None
  end.

Definition enc_str (s : string) : list byte :=
  enc_nat (N.of_nat (length (list_byte_of_string s))) ++ list_byte_of_string s.

(** The first [n] bytes and the rest; nothing if there are fewer. *)
Fixpoint take (n : nat) (bs : list byte) : option (list byte * list byte) :=
  match n with
  | O => Some ([], bs)
  | S k =>
      match bs with
      | [] => None
      | b :: r =>
          match take k r with
          | Some (h, rest) => Some (b :: h, rest)
          | None => None
          end
      end
  end.

Definition dec_str (bs : list byte) : option (string * list byte) :=
  match dec_nat bs with
  | Some (n, r) =>
      match take (N.to_nat n) r with
      | Some (h, rest) => Some (string_of_list_byte h, rest)
      | None => None
      end
  | None => None
  end.

Definition enc_key (k : pykey) : list byte :=
  match k with
  | KStr s => x00 :: enc_str s
  | KInt z => x01 :: enc_Z z
  end.

Definition dec_key (bs : list byte) : option (pykey * list byte) :=
  match bs with
  | x00 :: r =>
      match dec_str r with Some (s, rest) => Some (KStr s, rest) | None => None end
  | x01 :: r =>
      match dec_Z r with Some (z, rest) => Some (KInt z, rest) | None => None end
  | _ => None
  end.

Definition enc_scalar (v : scalar) : list byte :=
  match v with
  | SNull => [x00]
  | SBool b => [x01; if b then x01 else x00]
  | SInt z => x02 :: enc_Z z
  | SFloat bits => x03 :: enc_Z bits
  | SStr s => x04 :: enc_str s
  end.

Fixpoint encode (m : prim) : list byte :=
  match m with
  | PScalar v => enc_scalar v
  | PDict items =>
      x05 :: enc_nat (N.of_nat (length items)) ++
      flat_map (fun kv => enc_key (fst kv) ++ encode (snd kv)) items
  end.

(** [count] entries, each a key and a value decoded by [dec]. *)
Fixpoint dec_entries (dec : list byte -> option (prim * list byte))
         (count : nat) (bs : list byte)
  : option (list (pykey * prim) * list byte) :=
  match count with
  | O => Some ([], bs)
  | S c =>
      match dec_key bs with
      | Some (k, r1) =>
          match dec r1 with
          | Some (v, r2) =>
              match dec_entries dec c r2 with
              | Some (rest, r3) => Some ((k, v) :: rest, r3)
              | None => None
              end
          | None => None
          end
      | None => None
      end
  end.

(** Decoding one value from the front of [bs]; [fuel] bounds the nesting. *)
Fixpoint decode (fuel : nat) (bs : list byte) : option (prim * list byte) :=
  match fuel with
  | O => None
  | S fuel' =>
      match bs with
      | x00 :: r => Some (PScalar SNull, r)
      | x01 :: x00 :: r => Some (PScalar (SBool false), r)
      | x01 :: x01 :: r => Some (PScalar (SBool true), r)
      | x02 :: r =>
          match dec_Z r with
          | Some (z, rest) => Some (PScalar (SInt z), rest)
          | None => None
          end
      | x03 :: r =>
          match dec_Z r with
          | Some (z, rest) => Some (PScalar (SFloat z), rest)
          | None => None
          end
      | x04 :: r =>
          match dec_str r with
          | Some (s, rest) => Some (PScalar (SStr s), rest)
          | None => None
          end
      | x05 :: r =>
          match dec_nat r with
          | Some (n, r1) =>
              match dec_entries (decode fuel') (N.to_nat n) r1 with
              | Some (items, rest) => Some (PDict items, rest)
              | None => None
              end
          | None => None
          end
      | _ => None
      end
  end.

(** The depth of nesting of a primitive, a scalar counting for one. *)
Fixpoint height (m : prim) : nat :=
  match m with
  | PScalar _ => 1
  | PDict items => S (fold_right (fun kv h => Nat.max (height (snd kv)) h) 0 items)
  end.

(** [save(tree_mapping, destination)]: the bytes written. *)
Definition save (m : prim) : list byte := encode m.

(** [load(source)]: the mapping, or a format error on a truncated or
    malformed source or on trailing bytes.  A value nested [n] deep takes
    more than [n] bytes, so the length of the source is fuel enough. *)
Definition load (bs : list byte) : result prim :=
  match decode (length bs) bs with
  | Some (m, []) => OK m
  | _ => Raise (FormatError "Malformed configuration file.")
  end.

End Codec.

(** ** Messages, and names for what the properties speak of *)

Definition structure_msg : string :=
  "Cannot assign value to an interior node; it has children.".

Definition root_msg : string := "Cannot delete root node.".

Definition dict_msg : string := "Top-level configuration must be a dict.".
Definition keys_msg : string := "All keys must be strings.".

(** A leaf as [set] leaves it on a node it has just created. *)
Definition leaf (nm : string) (v : scalar) : Node :=
  mkNode nm [] (Some v) (Some (infer_type v)).

(** The items of an interior node's projection. *)
Definition prim_of_children (cs : list (string * Node)) : list (pykey * prim) :=
  map (fun kc => (KStr (fst kc), to_primitive (snd kc))) cs.

(** The root path: [len(parts) == 1 and parts[0] == "root"]. *)
Definition is_root_path (parts : list string) : bool :=
  ((length parts =? 1)%nat && String.eqb (hd "" parts) "root")%bool.

(** The parent path that [delete] builds and hands back to [_walk]. *)
Definition parent_path (parts : list string) : string :=
  PyStr.join "." (removelast parts).

(** The address at which [delete] looks for the parent: the root when the
    parent path is empty, otherwise whatever the parent path normalises to
    when it is split again. *)
Definition parent_addr (parts : list string) : result (list string) :=
  if PyStr.truthy (parent_path parts)
  then _split (Some (parent_path parts))
  else OK [].

(** A path is re-normalised faithfully when its parent path, once joined and
    split again, gives back the parent segments.  Segments with leading or
    trailing white space next to a dot break this. *)
Definition parent_reparses (parts : list string) : Prop :=
  parent_addr parts = OK (removelast parts).

(** The walk of [parts] from [n] creates nothing below a node that holds a
    value: where the walk leaves the existing tree, the node it extends has
    no value. *)
Fixpoint extends_no_leaf (parts : list string) (n : Node) : Prop :=
  match parts with
  | [] => True
  | k :: r => match PyDict.get k (children n) with
              | Some c => extends_no_leaf r c
              | None => value n = None
              end
  end.

(** Segments that survive being joined and split again: not empty, and
    made of ASCII characters other than white space and the dot. *)
Fixpoint all_chars (P : ascii -> bool) (s : string) : bool :=
  match s with
  | EmptyString => true
  | String c r => P c && all_chars P r
  end.

Definition ascii_non_space (c : ascii) : bool :=
  ((nat_of_ascii c <? 128)%nat && negb (PyStr.space1 c))%bool.
Definition not_dot (c : ascii) : bool := negb (Ascii.eqb c ".").

Definition plain_segment (s : string) : bool :=
  PyStr.truthy s && all_chars ascii_non_space s && all_chars not_dot s.

(** The entry at which the loop of [load_dict] stops: its key is not a
    string, or its value does not convert. *)
Definition load_stops_at (k : pykey) (v : prim) : Prop :=
  match k with
  | KInt _ => True
  | KStr s => exists e, from_primitive s v = Raise e
  end.

Definition is_dot (c : ascii) : bool := Ascii.eqb c ".".

(** Two addresses part ways: at some position, below a common prefix, they
    name different children.  Neither is then a prefix of the other. *)
Fixpoint diverge (a b : list string) : bool :=
  match a, b with
  | k1 :: a', k2 :: b' => if String.eqb k1 k2 then diverge a' b' else true
  | _, _ => false
  end.

(** A mapping as Python hands it to [load_dict] when every key, at every
    depth, is a string: the keys of one mapping are pairwise distinct. *)
Inductive well_keyed : prim -> Prop :=
| wk_scalar : forall s, well_keyed (PScalar s)
| wk_dict : forall items,
    (forall k, In k (map fst items) -> exists s, k = KStr s) ->
    NoDup (map fst items) ->
    (forall k v, In (k, v) items -> well_keyed v) ->
    well_keyed (PDict items).

(** ** Induction over nested nodes and primitives *)

Section NestedInduction.
Variable P : Node -> Prop.
Hypothesis step : forall nm cs v ty,
    Forall (fun kc => P (snd kc)) cs -> P (mkNode nm cs v ty).

Fixpoint Node_nested_ind (n : Node) : P n :=
  match n with
  | mkNode nm cs v ty =>
      step nm v ty
           ((fix go (l : list (string * Node)) : Forall (fun kc => P (snd kc)) l :=
               match l with
               | [] => Forall_nil _
               | kc :: r => Forall_cons kc (Node_nested_ind (snd kc)) (go r)
               end) cs)
  end.

Variable Q : prim -> Prop.
Hypothesis scalar_case : forall s, Q (PScalar s).
Hypothesis dict_case : forall items,
    Forall (fun kv => Q (snd kv)) items -> Q (PDict items).

Fixpoint prim_nested_ind (d : prim) : Q d :=
  match d with
  | PScalar s => scalar_case s
  | PDict items =>
      dict_case
        ((fix go (l : list (pykey * prim)) : Forall (fun kv => Q (snd kv)) l :=
            match l with
            | [] => Forall_nil _
            | kv :: r => Forall_cons kv (prim_nested_ind (snd kv)) (go r)
            end) items)
  end.
End NestedInduction.

(** ** Facts about dicts *)

Section DictFacts.
Variable V : Type.
Implicit Types (d : PyDict.t V) (k : string) (v : V).

Lemma get_set_same k v d : PyDict.get k (PyDict.set k v d) = Some v.
Proof.
  induction d as [|[k' v'] d IH]; simpl.
  - now rewrite String.eqb_refl.
  - destruct (String.eqb k k') eqn:E; simpl; rewrite E; auto.
Qed.

Lemma get_set_other k k' v d :
  k <> k' -> PyDict.get k (PyDict.set k' v d) = PyDict.get k d.
Proof.
  intros N. induction d as [|[k2 v2] d IH]; simpl.
  - destruct (String.eqb_spec k k'); congruence.
  - destruct (String.eqb_spec k' k2); simpl.
    + subst. destruct (String.eqb_spec k k2); congruence.
    + now rewrite IH.
Qed.

Lemma set_get_id k v d : PyDict.get k d = Some v -> PyDict.set k v d = d.
Proof.
  induction d as [|[k' v'] d IH]; simpl; [discriminate|].
  destruct (String.eqb_spec k k'); intros H.
  - congruence.
  - now rewrite IH.
Qed.

Lemma set_set k v v' d :
  PyDict.set k v' (PyDict.set k v d) = PyDict.set k v' d.
Proof.
  induction d as [|[k2 v2] d IH]; simpl.
  - now rewrite String.eqb_refl.
  - destruct (String.eqb k k2) eqn:E; simpl; rewrite E; auto.
    now rewrite IH.
Qed.

Lemma get_pop_same k d : PyDict.get k (PyDict.pop k d) = None.
Proof.
  induction d as [|[k' v'] d IH]; simpl; auto.
  destruct (String.eqb k k') eqn:E; simpl; [|rewrite E]; auto.
Qed.

Lemma get_None_not_in k d :
  PyDict.get k d = None -> ~ In k (PyDict.keys d).
Proof.
  induction d as [|[k' v'] d IH]; simpl; auto.
  destruct (String.eqb_spec k k'); [discriminate|].
  intros H [E|I]; [congruence | now apply IH].
Qed.

Lemma get_Some_in k v d : PyDict.get k d = Some v -> In (k, v) d.
Proof.
  induction d as [|[k' v'] d IH]; simpl; [discriminate|].
  destruct (String.eqb_spec k k'); intros H.
  - left. congruence.
  - right. auto.
Qed.

Lemma set_fresh k v d : PyDict.get k d = None -> PyDict.set k v d = d ++ [(k, v)].
Proof.
  induction d as [|[k' v'] d IH]; simpl; auto.
  destruct (String.eqb_spec k k'); [discriminate|].
  intros H. now rewrite IH.
Qed.

Lemma keys_set_present k v v' d :
  PyDict.get k d = Some v' -> PyDict.keys (PyDict.set k v d) = PyDict.keys d.
Proof.
  induction d as [|[k' v2] d IH]; simpl; [discriminate|].
  destruct (String.eqb_spec k k'); intros H; simpl; auto.
  f_equal. now apply IH.
Qed.

Lemma in_set_inv k v d k1 v1 :
  In (k1, v1) (PyDict.set k v d) -> (k1 = k /\ v1 = v) \/ In (k1, v1) d.
Proof.
  induction d as [|[k' v'] d IH]; simpl.
  - intros [E|[]]. left. inversion E; auto.
  - destruct (String.eqb_spec k k'); simpl.
    + intros [E|I]; [left; inversion E; subst; auto | right; auto].
    + intros [E|I]; [right; auto|]. destruct (IH I); auto.
Qed.

Lemma NoDup_keys_set k v d :
  NoDup (PyDict.keys d) -> NoDup (PyDict.keys (PyDict.set k v d)).
Proof.
  intros H. destruct (PyDict.get k d) eqn:E.
  - now rewrite keys_set_present with (v' := v0).
  - rewrite set_fresh by assumption. unfold PyDict.keys. rewrite map_app. simpl.
    apply NoDup_app; auto.
    + constructor; [intros []|constructor].
    + intros a I [<-|[]]. now apply get_None_not_in in E.
Qed.
End DictFacts.

(** ** Facts about references and the walk *)

Lemma Node_eta n : mkNode (name n) (children n) (value n) (type n) = n.
Proof. now destruct n. Qed.

Lemma with_child_same n k c :
  PyDict.get k (children n) = Some c -> with_child n k c = n.
Proof.
  intros H. unfold with_child. rewrite (set_get_id _ _ H). apply Node_eta.
Qed.

Lemma with_child_twice n k a b :
  with_child (with_child n k a) k b = with_child n k b.
Proof. unfold with_child. simpl. now rewrite set_set. Qed.

Lemma deref_with_child k r n c :
  deref (k :: r) (with_child n k c) = deref r c.
Proof. simpl. now rewrite get_set_same. Qed.

(** Reading through an address after a mutation at that address. *)
Lemma deref_update a f n :
  deref a (update a f n) =
  match deref a n with Some x => Some (f x) | None => None end.
Proof.
  revert n. induction a as [|k r IH]; intros n; simpl; auto.
  destruct (PyDict.get k (children n)) as [c|] eqn:E.
  - simpl. rewrite get_set_same. apply IH.
  - now rewrite E.
Qed.

(** A mutation at an address leaves what lies below it alone, except that
    the node there is replaced: reading further down reads below [f x]. *)
Lemma deref_update_below a b f n :
  deref (a ++ b) (update a f n) =
  match deref a n with Some x => deref b (f x) | None => None end.
Proof.
  revert n. induction a as [|k r IH]; intros n; simpl; auto.
  destruct (PyDict.get k (children n)) as [c|] eqn:E.
  - simpl. rewrite get_set_same. apply IH.
  - now rewrite E.
Qed.

Lemma deref_app a b n :
  deref (a ++ b) n =
  match deref a n with Some x => deref b x | None => None end.
Proof.
  revert n. induction a as [|k r IH]; intros n; simpl; auto.
  destruct (PyDict.get k (children n)); auto.
Qed.

(** A walk over nodes that all exist changes nothing and reaches the node,
    whatever the flags. *)
Lemma walk_loop_found strict create path parts n x :
  deref parts n = Some x ->
  walk_loop strict create path parts n = (n, OK (Some (mkRef parts x))).
Proof.
  revert n. induction parts as [|k r IH]; intros n H; simpl in *.
  - congruence.
  - destruct (PyDict.get k (children n)) as [c|] eqn:E; [|discriminate].
    rewrite (IH _ H). simpl. now rewrite (with_child_same _ _ E).
Qed.

(** A non-creating walk never changes the tree and never raises. *)
Lemma walk_loop_lookup strict path parts n :
  walk_loop strict false path parts n =
  (n, OK (match deref parts n with
          | Some x => Some (mkRef parts x)
          | None => None
          end)).
Proof.
  revert n. induction parts as [|k r IH]; intros n; simpl; auto.
  destruct (PyDict.get k (children n)) as [c|] eqn:E; auto.
  rewrite IH. rewrite (with_child_same _ _ E).
  destruct (deref r c); reflexivity.
Qed.

(** Under strict mode a creating walk raises at the first missing segment,
    before anything is created. *)
Lemma walk_loop_strict path parts n :
  deref parts n = None ->
  walk_loop true true path parts n = (n, Raise (ConfigStrictModeError path)).
Proof.
  revert n. induction parts as [|k r IH]; intros n H; simpl in *.
  - discriminate.
  - destruct (PyDict.get k (children n)) as [c|] eqn:E; auto.
    rewrite (IH _ H). simpl. now rewrite (with_child_same _ _ E).
Qed.

(** The reference a walk returns is the address walked, and it is valid in
    the tree the walk leaves. *)
Lemma walk_loop_reach strict create path parts n n' r :
  walk_loop strict create path parts n = (n', OK (Some r)) ->
  addr r = parts /\ deref parts n' = Some (target r).
Proof.
  revert n n' r. induction parts as [|k rest IH]; intros n n' r H; simpl in *.
  - inversion H; subst. auto.
  - destruct (PyDict.get k (children n)) as [c|] eqn:E.
    + destruct (walk_loop strict create path rest c) as [c' r'] eqn:W.
      inversion H; subst; clear H.
      destruct r' as [[x|]|e]; simpl in *; try discriminate.
      match goal with H : OK _ = OK _ |- _ => inversion H; subst; clear H end.
      destruct (IH _ _ _ W) as [A D]. simpl. rewrite A, get_set_same. auto.
    + destruct create; [|inversion H].
      destruct strict; [inversion H|].
      destruct (walk_loop false true path rest (Node_init k)) as [c' r'] eqn:W.
      inversion H; subst; clear H.
      destruct r' as [[x|]|e]; simpl in *; try discriminate.
      match goal with H : OK _ = OK _ |- _ => inversion H; subst; clear H end.
      destruct (IH _ _ _ W) as [A D]. simpl. rewrite A, get_set_same. auto.
Qed.

(** A lenient creating walk always reaches a node. *)
Lemma walk_loop_lenient_total path parts n :
  exists n' x, walk_loop false true path parts n = (n', OK (Some (mkRef parts x))).
Proof.
  revert n. induction parts as [|k rest IH]; intros n; simpl.
  - eauto.
  - destruct (PyDict.get k (children n)) as [c|].
    + destruct (IH c) as (c' & x & W). rewrite W. simpl. eauto.
    + destruct (IH (Node_init k)) as (c' & x & W). rewrite W. simpl. eauto.
Qed.

(** A node that a creating walk had to create has no children. *)
Lemma walk_loop_fresh_target path parts n n' r :
  deref parts n = None ->
  walk_loop false true path parts n = (n', OK (Some r)) ->
  children (target r) = [] /\ value (target r) = None.
Proof.
  revert n n' r. induction parts as [|k rest IH]; intros n n' r D H; simpl in *.
  - discriminate.
  - destruct (PyDict.get k (children n)) as [c|] eqn:E.
    + destruct (walk_loop false true path rest c) as [c' r'] eqn:W.
      inversion H; subst; clear H.
      destruct r' as [[x|]|e]; simpl in *; try discriminate.
      match goal with H : OK _ = OK _ |- _ => inversion H; subst; clear H end.
      simpl. eapply IH; eauto.
    + destruct (walk_loop false true path rest (Node_init k)) as [c' r'] eqn:W.
      inversion H; subst; clear H.
      destruct r' as [[x|]|e]; simpl in *; try discriminate.
      match goal with H : OK _ = OK _ |- _ => inversion H; subst; clear H end.
      simpl. destruct rest as [|k2 rest2].
      * simpl in W. inversion W; subst. auto.
      * eapply IH; [|exact W]. reflexivity.
Qed.

(** ** The operations, by cases on the tree *)

Lemma tree_eta t : mkTree (root t) (strict_mode t) = t.
Proof. now destruct t. Qed.

Lemma _split_nonempty path parts :
  _split path = OK parts -> (length parts =? 0)%nat = false.
Proof.
  unfold _split. destruct path as [p|]; [|discriminate].
  destruct (length _ =? 0)%nat eqn:E; [discriminate|].
  intros H. inversion H; subst. exact E.
Qed.

Lemma _split_segments path parts :
  _split path = OK parts -> Forall (fun s => PyStr.truthy s = true) parts.
Proof.
  unfold _split. destruct path as [p|]; [|discriminate].
  destruct (length _ =? 0)%nat; [discriminate|].
  intros H. inversion H; subst. apply Forall_forall.
  intros s I. now apply filter_In in I.
Qed.

(** [get] reads the node at the normalised address and changes nothing. *)
Lemma get_spec p parts t :
  _split (Some p) = OK parts ->
  get (Some p) t =
  (match deref parts (root t) with
   | Some x => OK (to_primitive x)
   | None => Raise (ConfigPathNotFoundError p)
   end, t).
Proof.
  intros S. unfold get, _walk, bind, lift, get_root, get_strict, put_root, ret, raise.
  rewrite S. rewrite walk_loop_lookup. simpl. rewrite tree_eta.
  destruct (deref parts (root t)); reflexivity.
Qed.

(** [set] on a path that resolves: the structural guard, then the
    assignment, under either policy. *)
Lemma set_existing p parts v t x :
  _split (Some p) = OK parts ->
  deref parts (root t) = Some x ->
  set (Some p) v t =
  if (0 <? length (children x))%nat
  then (Raise (ConfigNodeStructureError p structure_msg), t)
  else (OK v, mkTree (update parts (assign_leaf v) (root t)) (strict_mode t)).
Proof.
  intros S D. unfold set, _walk, bind, lift, get_root, get_strict, put_root, ret, raise, modify.
  rewrite S. erewrite _split_nonempty by eassumption. simpl.
  erewrite walk_loop_found by eassumption. simpl. rewrite tree_eta.
  destruct (0 <? length (children x))%nat; reflexivity.
Qed.

(** [set] on a path that does not resolve, strict mode. *)
Lemma set_missing_strict p parts v t :
  _split (Some p) = OK parts ->
  deref parts (root t) = None ->
  strict_mode t = true ->
  set (Some p) v t = (Raise (ConfigStrictModeError p), t).
Proof.
  destruct t as [rt st]. cbn [root strict_mode]. intros S D St. subst st.
  unfold set, _walk, bind, lift, get_root, get_strict, put_root, ret, raise, modify.
  rewrite S. erewrite _split_nonempty by eassumption. simpl.
  rewrite walk_loop_strict by assumption. reflexivity.
Qed.

(** [set] on a path that does not resolve, lenient mode. *)
Lemma set_missing_lenient p parts v t :
  _split (Some p) = OK parts ->
  deref parts (root t) = None ->
  strict_mode t = false ->
  set (Some p) v t =
  (OK v, mkTree (update parts (assign_leaf v)
                   (fst (walk_loop false true p parts (root t)))) false).
Proof.
  destruct t as [rt st]. cbn [root strict_mode]. intros S D St. subst st.
  unfold set, _walk, bind, lift, get_root, get_strict, put_root, ret, raise, modify.
  rewrite S. erewrite _split_nonempty by eassumption. simpl.
  destruct (walk_loop_lenient_total p parts rt) as (n' & x & W).
  rewrite W. simpl.
  destruct (walk_loop_fresh_target _ _ _ D W) as [C _]. simpl in C.
  rewrite C. reflexivity.
Qed.

(** A successful [set] ends with the assignment at the normalised address,
    where a node then stands. *)
Lemma set_ok_inv p v t w t' :
  set (Some p) v t = (OK w, t') ->
  exists parts n' x,
    _split (Some p) = OK parts /\
    deref parts n' = Some x /\
    w = v /\
    t' = mkTree (update parts (assign_leaf v) n') (strict_mode t).
Proof.
  intros H. destruct (_split (Some p)) as [parts|e] eqn:S.
  2:{ unfold set, bind, lift in H. rewrite S in H. discriminate. }
  exists parts.
  destruct (deref parts (root t)) as [x|] eqn:D.
  - erewrite set_existing in H by eassumption.
    destruct (0 <? length (children x))%nat; [discriminate|].
    inversion H; subst. eauto 6.
  - destruct (strict_mode t) eqn:St.
    + erewrite set_missing_strict in H by eassumption. discriminate.
    + erewrite set_missing_lenient in H by eassumption. inversion H; subst.
      destruct (walk_loop_lenient_total p parts (root t)) as (n' & x & W).
      rewrite W. simpl. destruct (walk_loop_reach _ _ _ _ _ W) as [_ R].
      simpl in R. eauto 6.
Qed.

Lemma _walk_inv path create t r t1 :
  _walk path create t = (OK (Some r), t1) ->
  exists p parts,
    path = Some p /\ _split path = OK parts /\
    strict_mode t1 = strict_mode t /\
    walk_loop (strict_mode t) create p parts (root t) = (root t1, OK (Some r)).
Proof.
  unfold _walk, bind, lift, get_root, get_strict, put_root.
  destruct (_split path) as [parts|e] eqn:S; [|discriminate].
  destruct path as [p|]; [|discriminate]. cbn [pstr].
  destruct (walk_loop (strict_mode t) create p parts (root t)) as [n' o] eqn:W.
  intros H. inversion H; subst. exists p, parts. auto.
Qed.

(** ** Properties of [set] and [get] *)

(** C5. Whenever [set(p, v)] succeeds, it returns [v], and a following
    [get(p)] returns the scalar [v] itself, a string, integer, float, boolean
    or null as it was given, and leaves the tree alone; the node at [p] holds
    [v] with the tag inferred from it and has no children. *)
Theorem set_get_round_trip (p : string) (v w : scalar) (t t' : ConfigTree) :
  set (Some p) v t = (OK w, t') ->
  w = v /\
  get (Some p) t' = (OK (PScalar v), t') /\
  exists parts n,
    _split (Some p) = OK parts /\
    deref parts (root t') = Some n /\
    value n = Some v /\ type n = Some (infer_type v) /\ children n = [].
Proof.
  intros H. apply set_ok_inv in H.
  destruct H as (parts & n' & x & S & D & -> & ->).
  split; [reflexivity|].
  assert (R : deref parts (update parts (assign_leaf v) n') = Some (assign_leaf v x))
    by (rewrite deref_update, D; reflexivity).
  split.
  - erewrite get_spec by eassumption. cbn [root]. now rewrite R.
  - exists parts, (assign_leaf v x). cbn [root]. auto.
Qed.

Lemma set_get_round_trip_witness :
  get (Some "server.port")
      (after (set (Some "server.port") (SInt 8080)) (ConfigTree_init false)) =
  (OK (PScalar (SInt 8080)),
   after (set (Some "server.port") (SInt 8080)) (ConfigTree_init false)).
Proof.
  apply (@set_get_round_trip "server.port" (SInt 8080) (SInt 8080)
           (ConfigTree_init false)).
  reflexivity.
Defined.

(** C6. Whenever the node that the walk of [set(p, v)] resolves owns one or
    more children, [set] fails with [NodeStructureError] and the tree is
    exactly what it was, so every path resolves as before. *)
Theorem set_structural_guard (p : string) (v : scalar) (t t1 : ConfigTree)
        (r : NodeRef) :
  _walk (Some p) true t = (OK (Some r), t1) ->
  children (target r) <> [] ->
  set (Some p) v t = (Raise (ConfigNodeStructureError p structure_msg), t).
Proof.
  intros W C. apply _walk_inv in W.
  destruct W as (p' & parts & E & S & _ & W). inversion E; subst p'; clear E.
  destruct (deref parts (root t)) as [x|] eqn:D.
  - erewrite walk_loop_found in W by eassumption. inversion W; subst.
    erewrite set_existing by eassumption. cbn [target] in C.
    destruct (children x); [congruence|reflexivity].
  - destruct (strict_mode t).
    + rewrite walk_loop_strict in W by assumption. discriminate.
    + apply walk_loop_fresh_target in W; [|assumption]. tauto.
Qed.

Lemma set_structural_guard_witness :
  let t := after (set (Some "a.b") (SInt 1)) (ConfigTree_init false) in
  set (Some "a") (SInt 2) t =
    (Raise (ConfigNodeStructureError "a" structure_msg), t) /\
  get (Some "a.b") t = (OK (PScalar (SInt 1)), t).
Proof.
  split; [|reflexivity].
  eapply (@set_structural_guard "a" (SInt 2)
            (after (set (Some "a.b") (SInt 1)) (ConfigTree_init false))).
  - reflexivity.
  - simpl. discriminate.
Defined.

(** C4. When the root has no child ["x"]: under strict mode
    [set("x.y", 1)] fails with [StrictModeViolation] carrying the full path
    ["x.y"] and the tree is unchanged (no node is created); under lenient
    mode the same call succeeds and adds ["x"] as an interior node (no
    value, one child) whose child ["y"] is a leaf holding the integer 1. *)
Theorem strict_mode_write_policy (t : ConfigTree) :
  PyDict.get "x" (children (root t)) = None ->
  (strict_mode t = true ->
   set (Some "x.y") (SInt 1) t = (Raise (ConfigStrictModeError "x.y"), t)) /\
  (strict_mode t = false ->
   let t' := mkTree (with_child (root t) "x"
                       (mkNode "x" [("y", leaf "y" (SInt 1))] None None))
                    false in
   set (Some "x.y") (SInt 1) t = (OK (SInt 1), t') /\
   get (Some "x.y") t' = (OK (PScalar (SInt 1)), t') /\
   get (Some "x") t' =
     (OK (PDict [(KStr "y", PScalar (SInt 1))]), t')).
Proof.
  intros X.
  assert (S : _split (Some "x.y") = OK ["x"; "y"]) by reflexivity.
  assert (D : deref ["x"; "y"] (root t) = None) by (simpl; now rewrite X).
  split; intros St.
  - now apply set_missing_strict with (parts := ["x"; "y"]).
  - cbv zeta.
    assert (R : forall c, deref ["x"; "y"] (with_child (root t) "x" c) = deref ["y"] c)
      by (intros c; apply deref_with_child).
    split; [|split].
    + erewrite set_missing_lenient by eassumption.
      simpl. rewrite X. simpl. rewrite get_set_same.
      now rewrite with_child_twice.
    + erewrite get_spec by exact S. cbn [root]. now rewrite R.
    + erewrite get_spec with (parts := ["x"]) by reflexivity.
      cbn [root]. now rewrite deref_with_child.
Qed.

Lemma strict_mode_write_policy_witness :
  set (Some "x.y") (SInt 1) (ConfigTree_init true) =
    (Raise (ConfigStrictModeError "x.y"), ConfigTree_init true) /\
  fst (set (Some "x.y") (SInt 1) (ConfigTree_init false)) = OK (SInt 1).
Proof.
  split.
  - apply (proj1 (@strict_mode_write_policy (ConfigTree_init true) eq_refl)).
    reflexivity.
  - rewrite (proj1 (proj2 (@strict_mode_write_policy (ConfigTree_init false) eq_refl)
                     eq_refl)).
    reflexivity.
Defined.

(** C9. Under strict mode [set] raises [StrictModeViolation], and leaves the
    tree unchanged, whenever the path does not resolve, whichever segment is
    the first one missing: so also when only the final segment is missing,
    as for [set("x", 1)] on an empty tree. *)
Theorem strict_mode_rejects_any_creation (p : string) (parts : list string)
        (v : scalar) (t : ConfigTree) :
  strict_mode t = true ->
  _split (Some p) = OK parts ->
  deref parts (root t) = None ->
  set (Some p) v t = (Raise (ConfigStrictModeError p), t).
Proof. intros St S D. now apply set_missing_strict with (parts := parts). Qed.

Lemma strict_mode_rejects_any_creation_witness :
  set (Some "x") (SInt 1) (ConfigTree_init true) =
  (Raise (ConfigStrictModeError "x"), ConfigTree_init true).
Proof.
  apply (@strict_mode_rejects_any_creation "x" ["x"] (SInt 1)
           (ConfigTree_init true)); reflexivity.
Defined.

(** C10. The segment ["root"] is an ordinary child name.  On a lenient tree
    whose root has no child ["root"], [set("root", v)] succeeds by adding a
    child named ["root"] under the root and [get("root")] then returns [v];
    [delete("root")] fails with [NodeStructureError] on every tree, this one
    included; and [get("root.x")] looks below a child named ["root"], so it
    fails with [PathNotFound] before and after that [set], while [get("x")]
    succeeds whenever the root has a child ["x"]. *)
Theorem root_segment_is_a_child_name (t : ConfigTree) (v : scalar) :
  strict_mode t = false ->
  PyDict.get "root" (children (root t)) = None ->
  let t' := mkTree (with_child (root t) "root" (leaf "root" v)) false in
  set (Some "root") v t = (OK v, t') /\
  children (root t') = children (root t) ++ [("root", leaf "root" v)] /\
  get (Some "root") t' = (OK (PScalar v), t') /\
  (forall s, delete (Some "root") s =
             (Raise (ConfigNodeStructureError "root" root_msg), s)) /\
  get (Some "root.x") t = (Raise (ConfigPathNotFoundError "root.x"), t) /\
  get (Some "root.x") t' = (Raise (ConfigPathNotFoundError "root.x"), t') /\
  (forall x, PyDict.get "x" (children (root t)) = Some x ->
             get (Some "x") t = (OK (to_primitive x), t)).
Proof.
  intros St X. cbv zeta.
  assert (S : _split (Some "root") = OK ["root"]) by reflexivity.
  assert (Sx : _split (Some "root.x") = OK ["root"; "x"]) by reflexivity.
  repeat split.
  - erewrite set_missing_lenient by (try eassumption; simpl; now rewrite X).
    simpl. rewrite X. simpl. now rewrite get_set_same, with_child_twice.
  - simpl. now apply set_fresh.
  - erewrite get_spec by exact S. cbn [root]. now rewrite deref_with_child.
  - erewrite get_spec by exact Sx. simpl. now rewrite X.
  - erewrite get_spec by exact Sx. cbn [root]. now rewrite deref_with_child.
  - intros x Hx. erewrite get_spec with (parts := ["x"]) by reflexivity.
    simpl. now rewrite Hx.
Qed.

Lemma root_segment_is_a_child_name_witness :
  let t := after (set (Some "x") (SInt 7)) (ConfigTree_init false) in
  let t' := after (set (Some "root") (SBool true)) t in
  get (Some "root") t' = (OK (PScalar (SBool true)), t') /\
  delete (Some "root") t' =
    (Raise (ConfigNodeStructureError "root" root_msg), t') /\
  get (Some "x") t = (OK (PScalar (SInt 7)), t) /\
  get (Some "root.x") t = (Raise (ConfigPathNotFoundError "root.x"), t).
Proof.
  pose proof (@root_segment_is_a_child_name
                (after (set (Some "x") (SInt 7)) (ConfigTree_init false))
                (SBool true) eq_refl eq_refl) as H.
  cbv zeta in H. destruct H as (_ & _ & G & Dl & Gx & _ & Gc).
  split; [exact G | split; [apply Dl | split; [|exact Gx]]].
  apply (Gc (leaf "x" (SInt 7))). reflexivity.
Defined.

(** ** The mutual-exclusion invariant *)

(** C1 (evaluation at the failing input).  On a fresh lenient tree,
    [set("a", 1)] and then [set("a.b", 2)] both succeed; the second walks
    through the leaf ["a"] and creates ["b"] below it, so the node ["a"] ends
    with the value 1 and the child ["b"]: the invariant holds before the
    second call and fails after it. *)
Theorem set_below_leaf_breaks_mutex :
  let t0 := ConfigTree_init false in
  let t1 := after (set (Some "a") (SInt 1)) t0 in
  let t2 := after (set (Some "a.b") (SInt 2)) t1 in
  mutex (root t0) = true /\
  outcome (set (Some "a") (SInt 1)) t0 = OK (SInt 1) /\
  mutex (root t1) = true /\
  outcome (set (Some "a.b") (SInt 2)) t1 = OK (SInt 2) /\
  deref ["a"] (root t2) =
    Some (mkNode "a" [("b", leaf "b" (SInt 2))] (Some (SInt 1)) (Some TInt)) /\
  mutex (root t2) = false.
Proof. cbv zeta. repeat split; reflexivity. Qed.

(** ** [load_dict] *)

Lemma build_children_raises conv items acc e :
  Forall (fun kv => forall nm e', conv nm (snd kv) = Raise e' ->
                                  e' = ConfigInvalidFormatError keys_msg) items ->
  build_children conv items acc = Raise e ->
  e = ConfigInvalidFormatError keys_msg.
Proof.
  intros F. revert acc. induction F as [|[k v] r Hk _ IH]; intros acc; simpl.
  - discriminate.
  - destruct k as [k|z]; [|intros H; now inversion H].
    destruct (conv k v) as [c|e'] eqn:C.
    + apply IH.
    + intros H. inversion H; subst. eapply Hk; eauto.
Qed.

(** The conversion fails only with [InvalidFormat]. *)
Lemma from_primitive_raises nm d e :
  from_primitive nm d = Raise e -> e = ConfigInvalidFormatError keys_msg.
Proof.
  revert nm e. induction d as [s|items IH] using prim_nested_ind; intros nm e; simpl.
  - discriminate.
  - destruct (build_children from_primitive items []) as [cs|e'] eqn:B;
      [discriminate|].
    intros H. inversion H; subst.
    eapply build_children_raises; [|exact B].
    eapply Forall_impl; [|exact IH]. simpl. eauto.
Qed.

Lemma load_items_app pre rest t :
  load_items (pre ++ rest) t =
  match load_items pre t with
  | (OK _, t') => load_items rest t'
  | (Raise e, t') => (Raise e, t')
  end.
Proof.
  revert t. induction pre as [|[k v] pre IH]; intros t; simpl; auto.
  destruct k as [k|z]; [|reflexivity].
  unfold bind, lift, get_root, put_root.
  destruct (from_primitive k v); [apply IH|reflexivity].
Qed.

Lemma load_items_raises items t e t' :
  load_items items t = (Raise e, t') -> e = ConfigInvalidFormatError keys_msg.
Proof.
  revert t. induction items as [|[k v] r IH]; intros t; simpl.
  - discriminate.
  - destruct k as [k|z]; [|intros H; now inversion H].
    unfold bind, lift, get_root, put_root.
    destruct (from_primitive k v) as [c|e'] eqn:F.
    + apply IH.
    + intros H. inversion H; subst. eapply from_primitive_raises; eauto.
Qed.

Lemma load_items_bad_key items t :
  (exists z v, In (KInt z, v) items) ->
  exists t', load_items items t = (Raise (ConfigInvalidFormatError keys_msg), t').
Proof.
  revert t. induction items as [|[k v] r IH]; intros t (z & w & I); simpl.
  - destruct I.
  - destruct k as [k|z']; [|unfold raise; eauto].
    destruct I as [E|I]; [discriminate|].
    unfold bind, lift, get_root, put_root.
    destruct (from_primitive k v) as [c|e'] eqn:F.
    + apply IH. eauto.
    + rewrite (from_primitive_raises _ _ F). eauto.
Qed.

(** The loop reads the root and nothing else of the tree it starts from. *)
Lemma load_items_strict_irrelevant items r s1 s2 :
  fst (load_items items (mkTree r s1)) = fst (load_items items (mkTree r s2)) /\
  root (snd (load_items items (mkTree r s1))) =
  root (snd (load_items items (mkTree r s2))).
Proof.
  revert r. induction items as [|[k v] rest IH]; intros r; simpl; auto.
  destruct k as [k|z]; [|simpl; auto].
  unfold bind, lift, get_root, put_root. simpl.
  destruct (from_primitive k v); simpl; auto.
Qed.

(** A loop that raises stopped at its first entry with a key that is not a
    string or a value that does not convert, having loaded the entries
    before it. *)
Lemma load_items_stop items t e t' :
  load_items items t = (Raise e, t') ->
  exists pre k v post,
    items = pre ++ (k, v) :: post /\
    load_items pre t = (OK tt, t') /\
    load_stops_at k v.
Proof.
  revert t. induction items as [|[k v] r IH]; intros t; simpl.
  - discriminate.
  - destruct k as [k|z].
    + unfold bind, lift, get_root, put_root.
      destruct (from_primitive k v) as [c|e'] eqn:F.
      * intros H. destruct (IH _ H) as (pre & k' & v' & post & -> & L & St).
        exists ((KStr k, v) :: pre), k', v', post. repeat split; auto.
        simpl. unfold bind, lift, get_root, put_root. now rewrite F.
      * intros H. inversion H; subst.
        exists [], (KStr k), v, r. repeat split; simpl; eauto.
    + intros H. inversion H; subst.
      exists [], (KInt z), v, r. repeat split; simpl; auto.
Qed.

(** C2 (as amended).  [load_dict] fails only with [InvalidFormat]; it does so
    when [data] is not a mapping, and then the tree is unchanged; it does so
    when some top-level key is not a string, but by then the root has been
    replaced by a fresh one and the previous tree is discarded: whenever
    [load_dict] fails on a mapping, the tree it leaves is the one that
    loading the entries before the failing entry gives, the failing entry
    being the first whose key is not a string or whose value does not
    convert.  Whether the call succeeds or fails on a mapping, the root it
    leaves does not depend on the tree it started from. *)
Theorem load_dict_failure_modes (t : ConfigTree) :
  (forall s, load_dict (PScalar s) t =
             (Raise (ConfigInvalidFormatError dict_msg), t)) /\
  (forall items, (exists z v, In (KInt z, v) items) ->
                 outcome (load_dict (PDict items)) t =
                 Raise (ConfigInvalidFormatError keys_msg)) /\
  (forall data e, outcome (load_dict data) t = Raise e ->
                  exists msg, e = ConfigInvalidFormatError msg) /\
  (forall items e t',
      load_dict (PDict items) t = (Raise e, t') ->
      exists pre k v post,
        items = pre ++ (k, v) :: post /\
        load_dict (PDict pre) t = (OK tt, t') /\
        load_stops_at k v) /\
  (forall items s,
      root (after (load_dict (PDict items)) t) =
      root (after (load_dict (PDict items)) s)).
Proof.
  split; [reflexivity|]. split; [|split; [|split]].
  - intros items B. unfold outcome, load_dict, bind, put_root. simpl.
    destruct (@load_items_bad_key items
                (mkTree (Node_init "root") (strict_mode t)) B) as [t' E].
    now rewrite E.
  - intros [s|items] e; unfold outcome, load_dict, bind, put_root, raise; simpl.
    + intros H. inversion H. eauto.
    + destruct (load_items items _) as [[u|e'] t'] eqn:L; simpl; [discriminate|].
      intros H. inversion H; subst. apply load_items_raises in L. eauto.
  - intros items e t'. unfold load_dict, bind, put_root. simpl.
    intros H. apply load_items_stop in H.
    destruct H as (pre & k & v & post & E & L & St).
    exists pre, k, v, post. auto.
  - intros items s. unfold after, load_dict, bind, put_root. simpl.
    apply load_items_strict_irrelevant.
Qed.

(** The witness loads [{"b": 2, "c": {1: 2}, "d": 4, 3: None}] over the tree
    [{"a": 1}]: the load stops at ["c"], whose value does not convert, and
    the tree that is left holds ["b"] alone. *)
Lemma load_dict_failure_modes_witness :
  let t := after (set (Some "a") (SInt 1)) (ConfigTree_init false) in
  let items := [(KStr "b", PScalar (SInt 2));
                (KStr "c", PDict [(KInt 1, PScalar (SInt 2))]);
                (KStr "d", PScalar (SInt 4));
                (KInt 3, PScalar SNull)] in
  exists pre k v post,
    items = pre ++ (k, v) :: post /\
    load_dict (PDict pre) t =
      (OK tt, mkTree (mkNode "root" [("b", leaf "b" (SInt 2))] None None)
                     false) /\
    load_stops_at k v.
Proof.
  cbv zeta.
  exact (proj1 (proj2 (proj2 (proj2 (load_dict_failure_modes
           (after (set (Some "a") (SInt 1)) (ConfigTree_init false))))))
           [(KStr "b", PScalar (SInt 2));
            (KStr "c", PDict [(KInt 1, PScalar (SInt 2))]);
            (KStr "d", PScalar (SInt 4));
            (KInt 3, PScalar SNull)]
           (ConfigInvalidFormatError keys_msg)
           (mkTree (mkNode "root" [("b", leaf "b" (SInt 2))] None None) false)
           eq_refl).
Defined.

(** C2 (counterexample).  It is not the case that every failing [load_dict]
    leaves [to_dict()] as it was: on the tree [{"a": 1}], loading [{3: None}]
    fails with [InvalidFormat] and leaves the empty tree. *)
Lemma load_dict_not_atomic :
  ~ (forall data t e,
        outcome (load_dict data) t = Raise e ->
        outcome to_dict (after (load_dict data) t) = outcome to_dict t).
Proof.
  intros H.
  specialize (H (PDict [(KInt 3, PScalar SNull)])
                (after (set (Some "a") (SInt 1)) (ConfigTree_init false))
                (ConfigInvalidFormatError keys_msg) eq_refl).
  vm_compute in H. discriminate H.
Qed.

(** ** [delete] *)

(** [delete], by cases on the tree. *)
Lemma delete_spec p parts t :
  _split (Some p) = OK parts ->
  is_root_path parts = false ->
  delete (Some p) t =
  match parent_addr parts with
  | Raise e => (Raise e, t)
  | OK pparts =>
      match deref pparts (root t) with
      | None => (OK false, t)
      | Some par =>
          if PyDict.mem (last parts "") (children par)
          then (OK true,
                mkTree (update pparts (pop_child (last parts "")) (root t))
                       (strict_mode t))
          else (OK false, t)
      end
  end.
Proof.
  intros S R. unfold delete, bind, lift. rewrite S.
  fold (is_root_path parts). rewrite R.
  fold (parent_path parts). unfold parent_addr, ret.
  destruct (PyStr.truthy (parent_path parts)).
  - unfold _walk, bind, lift, get_root, get_strict, put_root.
    destruct (_split (Some (parent_path parts))) as [pparts|e]; [|reflexivity].
    rewrite walk_loop_lookup. simpl. rewrite tree_eta.
    destruct (deref pparts (root t)) as [par|]; [|reflexivity].
    simpl. destruct (PyDict.mem (last parts "") (children par)); reflexivity.
  - unfold get_root, ret, modify. simpl.
    destruct (PyDict.mem (last parts "") (children (root t))); reflexivity.
Qed.

Lemma deref_popped key ext par :
  deref (key :: ext) (pop_child key par) = None.
Proof. simpl. now rewrite get_pop_same. Qed.

(** On a faithfully re-normalised path, a [delete] that returns true removes
    the node and all below it: [get] of the path, or of any path whose
    segments extend it, fails with [PathNotFound]. *)
Lemma delete_then_get_reparsing p parts t t' q ext :
  _split (Some p) = OK parts ->
  parent_reparses parts ->
  delete (Some p) t = (OK true, t') ->
  _split (Some q) = OK (parts ++ ext) ->
  get (Some q) t' = (Raise (ConfigPathNotFoundError q), t').
Proof.
  intros S C D Sq.
  assert (NE : parts <> []).
  { intros ->. apply _split_nonempty in S. discriminate. }
  destruct (is_root_path parts) eqn:R.
  { unfold delete, bind, lift in D. rewrite S in D.
    fold (is_root_path parts) in D. rewrite R in D. discriminate. }
  erewrite delete_spec in D by eassumption. rewrite C in D.
  erewrite get_spec by eassumption.
  rewrite (app_removelast_last "" NE), <- app_assoc. simpl.
  destruct (deref (removelast parts) (root t)) as [par|] eqn:P; [|discriminate].
  destruct (PyDict.mem (last parts "") (children par)); [|discriminate].
  inversion D; subst. cbn [root].
  rewrite deref_update_below, P, deref_popped. reflexivity.
Qed.

(** On a faithfully re-normalised path that does not resolve, [delete]
    returns false, raises nothing and leaves the tree unchanged. *)
Lemma delete_absent_reparsing p parts t :
  _split (Some p) = OK parts ->
  is_root_path parts = false ->
  parent_reparses parts ->
  deref parts (root t) = None ->
  delete (Some p) t = (OK false, t).
Proof.
  intros S R C D.
  assert (NE : parts <> []).
  { intros ->. apply _split_nonempty in S. discriminate. }
  erewrite delete_spec by eassumption. rewrite C.
  rewrite (app_removelast_last "" NE), deref_app in D.
  destruct (deref (removelast parts) (root t)) as [par|]; [|reflexivity].
  simpl in D. unfold PyDict.mem.
  destruct (PyDict.get (last parts "") (children par)); [discriminate|reflexivity].
Qed.

(** *** Paths made of plain segments *)

Lemma all_chars_app P a b :
  all_chars P (a ++ b) = all_chars P a && all_chars P b.
Proof.
  induction a as [|c a IH]; simpl; auto. now rewrite IH, andb_assoc.
Qed.

Lemma lstrip_cons c r :
  PyStr.lstrip (String c r) =
  if PyStr.space1 c then PyStr.lstrip r
  else match r with
       | EmptyString => String c r
       | String d r2 =>
           if PyStr.space2 c d then PyStr.lstrip r2
           else match r2 with
                | EmptyString => String c r
                | String e r3 =>
                    if PyStr.space3 c d e then PyStr.lstrip r3 else String c r
                end
       end.
Proof. reflexivity. Qed.

Lemma rstrip_cons c r :
  PyStr.rstrip (String c r) =
  if PyStr.all_space (String c r) then EmptyString
  else String c (PyStr.rstrip r).
Proof. reflexivity. Qed.

(** An ASCII byte that is not white space starts no white-space
    character. *)
Lemma ascii_non_space_inv c :
  ascii_non_space c = true ->
  PyStr.space1 c = false /\
  (forall d, PyStr.space2 c d = false) /\
  (forall d e, PyStr.space3 c d e = false).
Proof.
  unfold ascii_non_space. rewrite andb_true_iff, negb_true_iff.
  intros [L S1]. apply Nat.ltb_lt in L.
  assert (E : forall k, 128 <= k -> (nat_of_ascii c =? k)%nat = false)
    by (intros k Hk; apply Nat.eqb_neq; lia).
  split; [exact S1|]. split.
  - intros d. unfold PyStr.space2. now rewrite E by lia.
  - intros d e. unfold PyStr.space3. cbv zeta.
    now rewrite !E by lia.
Qed.

Lemma lstrip_head c r :
  ascii_non_space c = true -> PyStr.lstrip (String c r) = String c r.
Proof.
  intros H. destruct (ascii_non_space_inv _ H) as (S1 & S2 & S3).
  rewrite lstrip_cons, S1. destruct r as [|d r2]; auto.
  rewrite S2. destruct r2 as [|e r3]; auto. now rewrite S3.
Qed.

Lemma all_space_head c r :
  ascii_non_space c = true -> PyStr.all_space (String c r) = false.
Proof. intros H. unfold PyStr.all_space. now rewrite lstrip_head. Qed.

Lemma rstrip_no_space s :
  all_chars ascii_non_space s = true -> PyStr.rstrip s = s.
Proof.
  induction s as [|c r IH]; [reflexivity|].
  cbn [all_chars]. intros H. apply andb_true_iff in H. destruct H as [C R].
  now rewrite rstrip_cons, all_space_head, IH.
Qed.

Lemma strip_no_space s :
  all_chars ascii_non_space s = true -> PyStr.strip s = s.
Proof.
  intros H. unfold PyStr.strip.
  assert (L : PyStr.lstrip s = s).
  { destruct s as [|c r]; [reflexivity|].
    cbn [all_chars] in H. apply andb_true_iff in H. destruct H as [C _].
    now apply lstrip_head. }
  rewrite L. now apply rstrip_no_space.
Qed.

Lemma split_no_dot s : all_chars not_dot s = true -> PyStr.split "." s = [s].
Proof.
  induction s as [|c r IH]; simpl; auto.
  unfold not_dot at 1. intros H. apply andb_true_iff in H. destruct H as [C R].
  rewrite (IH R). now destruct (Ascii.eqb c ".").
Qed.

Lemma split_before_dot s rest :
  all_chars not_dot s = true ->
  PyStr.split "." (s ++ String "." rest) = s :: PyStr.split "." rest.
Proof.
  induction s as [|c r IH]; simpl; auto.
  unfold not_dot at 1. intros H. apply andb_true_iff in H. destruct H as [C R].
  rewrite (IH R). now destruct (Ascii.eqb c ".").
Qed.

Lemma join_cons s s' r :
  PyStr.join "." (s :: s' :: r) =
  (s ++ String "." (PyStr.join "." (s' :: r)))%string.
Proof. reflexivity. Qed.

Lemma split_join parts :
  parts <> [] ->
  Forall (fun s => all_chars not_dot s = true) parts ->
  PyStr.split "." (PyStr.join "." parts) = parts.
Proof.
  intros NE F. induction F as [|s r Hs F IH]; [congruence|].
  destruct r as [|s' r].
  - now apply split_no_dot.
  - rewrite join_cons, split_before_dot by assumption.
    now rewrite IH.
Qed.

Lemma join_no_space parts :
  Forall (fun s => all_chars ascii_non_space s = true) parts ->
  all_chars ascii_non_space (PyStr.join "." parts) = true.
Proof.
  induction 1 as [|s r Hs F IH]; [reflexivity|].
  destruct r as [|s' r]; [assumption|].
  rewrite join_cons, all_chars_app, Hs. simpl. exact IH.
Qed.

Lemma filter_truthy parts :
  Forall (fun s => PyStr.truthy s = true) parts ->
  filter PyStr.truthy parts = parts.
Proof.
  induction 1 as [|s r Hs F IH]; simpl; auto. now rewrite Hs, IH.
Qed.

Lemma plain_segment_inv s :
  plain_segment s = true ->
  PyStr.truthy s = true /\ all_chars ascii_non_space s = true /\
  all_chars not_dot s = true.
Proof.
  unfold plain_segment. rewrite !andb_true_iff. tauto.
Qed.

(** A non-empty list of plain segments, joined with dots, normalises to
    itself. *)
Lemma _split_join_plain parts :
  parts <> [] ->
  Forall (fun s => plain_segment s = true) parts ->
  _split (Some (PyStr.join "." parts)) = OK parts.
Proof.
  intros NE F. unfold _split.
  rewrite strip_no_space, split_join, filter_truthy; auto.
  - destruct parts; [congruence|reflexivity].
  - eapply Forall_impl; [|exact F]. intros s H. now apply plain_segment_inv in H.
  - eapply Forall_impl; [|exact F]. intros s H. now apply plain_segment_inv in H.
  - apply join_no_space.
    eapply Forall_impl; [|exact F]. intros s H. now apply plain_segment_inv in H.
Qed.

Lemma Forall_removelast (A : Type) (P : A -> Prop) (l : list A) :
  Forall P l -> Forall P (removelast l).
Proof.
  induction 1 as [|x l Hx F IH]; simpl; auto.
  destruct l; auto.
Qed.

Lemma truthy_join s r :
  PyStr.truthy s = true -> PyStr.truthy (PyStr.join "." (s :: r)) = true.
Proof.
  destruct r as [|s' r]; [auto|].
  rewrite join_cons. destruct s; [discriminate|reflexivity].
Qed.

(** The parent of a path made of plain segments is found by its segments. *)
Lemma plain_parent_reparses parts :
  Forall (fun s => plain_segment s = true) parts -> parent_reparses parts.
Proof.
  intros F. apply Forall_removelast in F.
  unfold parent_reparses, parent_addr, parent_path.
  destruct (removelast parts) as [|s r] eqn:E; [reflexivity|].
  rewrite truthy_join
    by (inversion F as [|? ? Hs _]; subst; now apply plain_segment_inv in Hs).
  apply _split_join_plain; [discriminate|assumption].
Qed.

(** For paths made of plain segments, a [delete] that returns true removes
    the node and everything below it. *)
Lemma delete_then_get_plain p parts t t' q ext :
  _split (Some p) = OK parts ->
  Forall (fun s => plain_segment s = true) parts ->
  delete (Some p) t = (OK true, t') ->
  _split (Some q) = OK (parts ++ ext) ->
  get (Some q) t' = (Raise (ConfigPathNotFoundError q), t').
Proof.
  intros S F. apply delete_then_get_reparsing; auto using plain_parent_reparses.
Qed.

(** For paths made of plain segments, deleting what is not there returns
    false and changes nothing. *)
Lemma delete_absent_plain p parts t :
  _split (Some p) = OK parts ->
  is_root_path parts = false ->
  Forall (fun s => plain_segment s = true) parts ->
  deref parts (root t) = None ->
  delete (Some p) t = (OK false, t).
Proof.
  intros S R F. apply delete_absent_reparsing; auto using plain_parent_reparses.
Qed.

(** Deleting ["a.b"] where ["a.b.c"] existed. *)
Example delete_interior_example :
  let t := after (set (Some "a.b.c") (SInt 1)) (ConfigTree_init false) in
  let t' := after (delete (Some "a.b")) t in
  get (Some "a.b.c") t' = (Raise (ConfigPathNotFoundError "a.b.c"), t') /\
  get (Some "a.b") t' = (Raise (ConfigPathNotFoundError "a.b"), t') /\
  delete (Some "never.created") t = (OK false, t).
Proof.
  cbv zeta. split; [|split].
  - apply delete_then_get_plain
      with (p := "a.b") (parts := ["a"; "b"]) (ext := ["c"])
           (t := after (set (Some "a.b.c") (SInt 1)) (ConfigTree_init false));
      try reflexivity.
    repeat constructor.
  - apply delete_then_get_plain
      with (p := "a.b") (parts := ["a"; "b"]) (ext := [])
           (t := after (set (Some "a.b.c") (SInt 1)) (ConfigTree_init false));
      try reflexivity.
    repeat constructor.
  - apply delete_absent_plain with (parts := ["never"; "created"]);
      try reflexivity.
    repeat constructor.
Qed.

(** C7 (evaluation at the failing input).  With ["a.b"] = 1 and
    ["a. .b"] = 2 in the tree, [delete("a. .b")] splits the path into
    ["a"], [" "], ["b"], joins the parent back into ["a. "] and walks that
    string, which normalises to ["a"] alone: it returns true after removing
    ["a.b"], and [get("a. .b")] still returns 2. *)
Theorem delete_then_get_still_resolves :
  let t0 := ConfigTree_init false in
  let t1 := after (set (Some "a.b") (SInt 1)) t0 in
  let t2 := after (set (Some "a. .b") (SInt 2)) t1 in
  let t3 := after (delete (Some "a. .b")) t2 in
  _split (Some "a. .b") = OK ["a"; " "; "b"] /\
  parent_path ["a"; " "; "b"] = "a. " /\
  parent_addr ["a"; " "; "b"] = OK ["a"] /\
  get (Some "a.b") t2 = (OK (PScalar (SInt 1)), t2) /\
  get (Some "a. .b") t2 = (OK (PScalar (SInt 2)), t2) /\
  outcome (delete (Some "a. .b")) t2 = OK true /\
  get (Some "a. .b") t3 = (OK (PScalar (SInt 2)), t3) /\
  get (Some "a.b") t3 = (Raise (ConfigPathNotFoundError "a.b"), t3).
Proof. cbv zeta. repeat split; reflexivity. Qed.

(** C8 (evaluation at the failing input).  On an empty tree the valid path
    [". .b"] has the segments [" "] and ["b"], and its parent [" "] does not
    resolve; [delete] joins the parent back into [" "] and walks that
    string, whose normalisation is empty: the call raises [InvalidPath]
    instead of returning false.  And with ["a.b"] in the tree,
    [delete("a. .b")], whose parent ["a"], [" "] does not resolve either,
    returns true and removes ["a.b"]. *)
Theorem delete_absent_parent_raises :
  let t0 := ConfigTree_init false in
  let t1 := after (set (Some "a.b") (SInt 1)) t0 in
  _split (Some ". .b") = OK [" "; "b"] /\
  is_root_path [" "; "b"] = false /\
  deref [" "] (root t0) = None /\
  delete (Some ". .b") t0 =
    (Raise (ConfigInvalidPathError " " "Path cannot be empty."), t0) /\
  deref ["a"; " "] (root t1) = None /\
  delete (Some "a. .b") t1 =
    (OK true, mkTree (mkNode "root" [("a", Node_init "a")] None None) false).
Proof. cbv zeta. repeat split; reflexivity. Qed.

(** ** The primitive projection and its inverse *)

Lemma to_primitive_interior n :
  children n <> [] -> to_primitive n = PDict (prim_of_children (children n)).
Proof. destruct n as [nm [|c cs] v ty]; intros H; [now elim H|reflexivity]. Qed.

Lemma to_dict_items t :
  to_dict t = (OK (PDict (prim_of_children (children (root t)))), t).
Proof.
  unfold to_dict, bind, get_root, ret.
  destruct (children (root t)) eqn:E; [reflexivity|].
  rewrite to_primitive_interior by congruence. now rewrite E.
Qed.

Lemma not_in_get_None (V : Type) k (d : PyDict.t V) :
  ~ In k (PyDict.keys d) -> PyDict.get k d = None.
Proof.
  induction d as [|[k' v] d IH]; simpl; auto.
  intros N. destruct (String.eqb_spec k k').
  - subst. exfalso. apply N. now left.
  - apply IH. intros I. apply N. now right.
Qed.

(** Rebuilding children from their projections: with pairwise distinct keys,
    none of them in [acc], every child is appended in order, and the rebuilt
    children project as the originals do. *)
Lemma build_children_round_trip cs :
  Forall (fun kc => forall nm, exists n',
              from_primitive nm (to_primitive (snd kc)) = OK n' /\
              to_primitive n' = to_primitive (snd kc)) cs ->
  NoDup (PyDict.keys cs) ->
  forall acc,
    (forall k, In k (PyDict.keys cs) -> ~ In k (PyDict.keys acc)) ->
    exists cs',
      build_children from_primitive (prim_of_children cs) acc = OK (acc ++ cs') /\
      prim_of_children cs' = prim_of_children cs.
Proof.
  induction 1 as [|[k c] cs Hc _ IH]; intros ND acc Dis; simpl.
  - exists []. now rewrite app_nil_r.
  - inversion ND as [|? ? Nk ND']; subst.
    destruct (Hc k) as (c' & F & T). simpl in F, T. rewrite F.
    rewrite set_fresh by (apply not_in_get_None, Dis; simpl; auto).
    destruct (IH ND' (acc ++ [(k, c')])) as (cs' & B & E).
    + intros k' I. unfold PyDict.keys. rewrite map_app, in_app_iff. simpl.
      intros [J|[<-|[]]]; [|contradiction].
      apply (Dis k'); simpl; auto.
    + exists ((k, c') :: cs'). rewrite B, <- app_assoc. simpl.
      now rewrite T, E.
Qed.

(** Converting a node's projection back gives a node with that projection. *)
Lemma from_to_primitive n :
  wf n ->
  forall nm, exists n',
    from_primitive nm (to_primitive n) = OK n' /\
    to_primitive n' = to_primitive n.
Proof.
  induction n as [nm0 cs v ty IH] using Node_nested_ind. intros W nm.
  inversion W as [? ND Wc]; subst. simpl in ND, Wc.
  destruct cs as [|c0 cs0].
  - simpl. destruct v as [v|]; simpl; eauto.
  - rewrite to_primitive_interior by (simpl; congruence).
    cbn [children from_primitive].
    destruct (@build_children_round_trip (c0 :: cs0)) with (acc := @nil (string * Node))
      as (cs' & B & E).
    + rewrite Forall_forall in *. intros [k c] I. apply IH; auto.
      simpl. eapply Wc; eauto.
    + exact ND.
    + intros k _ [].
    + rewrite B. simpl. eexists. split; [reflexivity|].
      rewrite to_primitive_interior; simpl.
      * now rewrite E.
      * intros ->. discriminate E.
Qed.

(** The loop of [load_dict] stores what [build_children] builds. *)
Lemma load_items_build items t cs :
  build_children from_primitive items (children (root t)) = OK cs ->
  load_items items t =
  (OK tt, mkTree (mkNode (name (root t)) cs (value (root t)) (type (root t)))
                 (strict_mode t)).
Proof.
  revert t. induction items as [|[k v] r IH]; intros t; simpl.
  - intros H. inversion H; subst. unfold ret. now rewrite Node_eta, tree_eta.
  - destruct k as [k|z]; [|discriminate].
    unfold bind, lift, get_root, put_root.
    destruct (from_primitive k v) as [c|e]; [|discriminate].
    intros B. now rewrite IH.
Qed.

(** [load_dict] of what [to_dict] returned rebuilds a tree with the same
    [to_dict], whatever tree it is loaded into. *)
Lemma load_dict_to_dict t s m :
  wf (root t) ->
  outcome to_dict t = OK m ->
  exists s', load_dict m s = (OK tt, s') /\ outcome to_dict s' = OK m.
Proof.
  intros W H. unfold outcome in H. rewrite to_dict_items in H.
  simpl in H. inversion H; subst; clear H.
  inversion W as [? ND Wc]; subst.
  destruct (@build_children_round_trip (children (root t)))
    with (acc := @nil (string * Node)) as (cs' & B & E).
  - rewrite Forall_forall. intros [k c] I nm. apply from_to_primitive.
    simpl. eapply Wc; eauto.
  - exact ND.
  - intros k _ [].
  - exists (mkTree (mkNode "root" cs' None None) (strict_mode s)). split.
    + unfold load_dict, bind, put_root.
      erewrite load_items_build by (simpl; exact B). reflexivity.
    + unfold outcome. rewrite to_dict_items. simpl. now rewrite E.
Qed.

(** ** Distinct child names are preserved *)

Lemma wf_fresh nm : wf (Node_init nm).
Proof. constructor; simpl; [constructor | intros ? ? []]. Qed.

Lemma wf_child n k c : wf n -> PyDict.get k (children n) = Some c -> wf c.
Proof. intros W G. inversion W; subst. eauto using get_Some_in. Qed.

Lemma wf_with_child n k c : wf n -> wf c -> wf (with_child n k c).
Proof.
  intros W Wc. inversion W as [? ND Wn]; subst. constructor; simpl.
  - now apply NoDup_keys_set.
  - intros k1 c1 I. apply in_set_inv in I. destruct I as [[_ ->]|I]; eauto.
Qed.

Lemma wf_walk_loop strict create path parts n :
  wf n -> wf (fst (walk_loop strict create path parts n)).
Proof.
  revert n. induction parts as [|k rest IH]; intros n W; simpl; auto.
  destruct (PyDict.get k (children n)) as [c|] eqn:E.
  - specialize (IH c (wf_child _ W E)).
    destruct (walk_loop strict create path rest c). simpl in *.
    now apply wf_with_child.
  - destruct create; [|assumption]. destruct strict; [assumption|].
    specialize (IH (Node_init k) (wf_fresh k)).
    destruct (walk_loop false true path rest (Node_init k)). simpl in *.
    now apply wf_with_child.
Qed.

Lemma wf_update a f n :
  (forall x, wf x -> wf (f x)) -> wf n -> wf (update a f n).
Proof.
  intros F. revert n. induction a as [|k r IH]; intros n W; simpl; auto.
  destruct (PyDict.get k (children n)) as [c|] eqn:E; auto.
  apply wf_with_child; auto. apply IH. eapply wf_child; eauto.
Qed.

Lemma wf_assign_leaf v x : wf (assign_leaf v x).
Proof. constructor; simpl; [constructor | intros ? ? []]. Qed.

(** [set] keeps child names distinct, whether it succeeds or raises. *)
Lemma set_preserves_wf p v t :
  wf (root t) -> wf (root (after (set (Some p) v) t)).
Proof.
  intros W. unfold after.
  destruct (_split (Some p)) as [parts|e] eqn:S.
  2:{ unfold set, bind, lift. now rewrite S. }
  destruct (deref parts (root t)) as [x|] eqn:D.
  - erewrite set_existing by eassumption.
    destruct (0 <? length (children x))%nat; simpl; auto.
    apply wf_update; auto using wf_assign_leaf.
  - destruct (strict_mode t) eqn:St.
    + erewrite set_missing_strict by eassumption. assumption.
    + erewrite set_missing_lenient by eassumption. simpl.
      apply wf_update; auto using wf_assign_leaf, wf_walk_loop.
Qed.

(** ** Where the mutual-exclusion invariant is kept *)

Lemma mutex_unfold n :
  mutex n = node_ok n && forallb (fun kc => mutex (snd kc)) (children n).
Proof. now destruct n. Qed.

Lemma forallb_dict_get (P : Node -> bool) k c (d : PyDict.t Node) :
  forallb (fun kc => P (snd kc)) d = true ->
  PyDict.get k d = Some c -> P c = true.
Proof.
  intros F G. apply get_Some_in in G.
  rewrite forallb_forall in F. exact (F _ G).
Qed.

Lemma forallb_dict_set (P : Node -> bool) k c (d : PyDict.t Node) :
  forallb (fun kc => P (snd kc)) d = true -> P c = true ->
  forallb (fun kc => P (snd kc)) (PyDict.set k c d) = true.
Proof.
  intros F Pc. induction d as [|[k' c'] d IH]; simpl in *.
  - now rewrite Pc.
  - apply andb_true_iff in F. destruct F as [F1 F2].
    destruct (String.eqb k k'); simpl; rewrite ?Pc, ?F1, ?F2, ?IH; auto.
Qed.

Lemma forallb_dict_pop (P : Node -> bool) k (d : PyDict.t Node) :
  forallb (fun kc => P (snd kc)) d = true ->
  forallb (fun kc => P (snd kc)) (PyDict.pop k d) = true.
Proof.
  intros F. induction d as [|[k' c'] d IH]; simpl in *; auto.
  apply andb_true_iff in F. destruct F as [F1 F2].
  destruct (String.eqb k k'); simpl; rewrite ?F1, ?IH; auto.
Qed.

Lemma mutex_child n k c :
  mutex n = true -> PyDict.get k (children n) = Some c -> mutex c = true.
Proof.
  rewrite mutex_unfold, andb_true_iff. intros [_ F] G.
  exact (forallb_dict_get (fun c => mutex c) _ _ F G).
Qed.

(** Under the invariant, a node that has a child has no value. *)
Lemma mutex_parent_no_value n k c :
  mutex n = true -> PyDict.get k (children n) = Some c -> value n = None.
Proof.
  rewrite mutex_unfold, andb_true_iff. intros [O _] G. unfold node_ok in O.
  destruct (children n); [discriminate|].
  destruct (value n); [discriminate|reflexivity].
Qed.

Lemma mutex_with_child n k c :
  mutex n = true -> value n = None -> mutex c = true ->
  mutex (with_child n k c) = true.
Proof.
  rewrite !mutex_unfold, !andb_true_iff. intros [_ F] V Mc. split.
  - unfold node_ok, with_child. simpl. rewrite V.
    now destruct (PyDict.set k c (children n)).
  - simpl. apply (forallb_dict_set (fun c => mutex c)); auto.
    now rewrite mutex_unfold, andb_true_iff.
Qed.

(** A mutation below existing nodes keeps the invariant if it does at the
    node it changes. *)
Lemma mutex_update a f n :
  (forall x, mutex x = true -> mutex (f x) = true) ->
  mutex n = true -> mutex (update a f n) = true.
Proof.
  intros F. revert n. induction a as [|k r IH]; intros n Mn; simpl; auto.
  destruct (PyDict.get k (children n)) as [c|] eqn:E; auto.
  apply mutex_with_child; eauto using mutex_parent_no_value, mutex_child.
Qed.

Lemma mutex_assign_leaf v x : mutex (assign_leaf v x) = true.
Proof. reflexivity. Qed.

Lemma mutex_pop_child key x : mutex x = true -> mutex (pop_child key x) = true.
Proof.
  rewrite !mutex_unfold, !andb_true_iff. intros [O F]. split.
  - unfold node_ok, pop_child in *. simpl.
    destruct (PyDict.pop key (children x)) eqn:Ep; auto.
    destruct (value x); auto.
    destruct (children x); [discriminate Ep|discriminate O].
  - simpl. now apply (forallb_dict_pop (fun c => mutex c)).
Qed.

Lemma extends_no_leaf_fresh parts k : extends_no_leaf parts (Node_init k).
Proof. destruct parts; simpl; auto. Qed.

(** A lenient creating walk keeps the invariant when it extends no node
    that holds a value. *)
Lemma mutex_walk_loop path parts n :
  mutex n = true -> extends_no_leaf parts n ->
  mutex (fst (walk_loop false true path parts n)) = true.
Proof.
  revert n. induction parts as [|k rest IH]; intros n Mn X; simpl in *; auto.
  destruct (PyDict.get k (children n)) as [c|] eqn:E.
  - specialize (IH c (@mutex_child n k c Mn E) X).
    destruct (walk_loop false true path rest c). simpl in *.
    apply mutex_with_child; eauto using mutex_parent_no_value.
  - specialize (IH (Node_init k) eq_refl (extends_no_leaf_fresh rest k)).
    destruct (walk_loop false true path rest (Node_init k)). simpl in *.
    now apply mutex_with_child.
Qed.

(** X20. [set] keeps the invariant whenever its walk extends no node that
    holds a value; the invariant can only be lost by creating below a
    leaf. *)
Lemma set_preserves_mutex p parts v t :
  _split (Some p) = OK parts ->
  mutex (root t) = true ->
  extends_no_leaf parts (root t) ->
  mutex (root (after (set (Some p) v) t)) = true.
Proof.
  intros S Mt X. unfold after.
  destruct (deref parts (root t)) as [x|] eqn:D.
  - erewrite set_existing by eassumption.
    destruct (0 <? length (children x))%nat; simpl; auto.
    apply mutex_update; auto using mutex_assign_leaf.
  - destruct (strict_mode t) eqn:St.
    + erewrite set_missing_strict by eassumption. assumption.
    + erewrite set_missing_lenient by eassumption. simpl.
      apply mutex_update; auto using mutex_assign_leaf, mutex_walk_loop.
Qed.

(** X21. [delete] keeps the invariant, whatever it returns. *)
Lemma delete_preserves_mutex p t :
  mutex (root t) = true -> mutex (root (after (delete (Some p)) t)) = true.
Proof.
  intros Mt. unfold after.
  destruct (_split (Some p)) as [parts|e] eqn:S.
  2:{ unfold delete, bind, lift. now rewrite S. }
  destruct (is_root_path parts) eqn:R.
  { unfold delete, bind, lift. rewrite S. fold (is_root_path parts).
    now rewrite R. }
  erewrite delete_spec by eassumption.
  destruct (parent_addr parts) as [pparts|e]; [|assumption].
  destruct (deref pparts (root t)) as [par|]; [|assumption].
  destruct (PyDict.mem (last parts "") (children par)); [|assumption].
  simpl. apply mutex_update; auto using mutex_pop_child.
Qed.

(** ** Path normalisation *)

Lemma split_pieces_no_dot s :
  Forall (fun x => all_chars not_dot x = true) (PyStr.split "." s).
Proof.
  induction s as [|c r IH]; simpl.
  - repeat constructor.
  - destruct (Ascii.eqb c ".") eqn:E.
    + constructor; auto.
    + destruct (PyStr.split "." r) as [|h t]; inversion IH; subst;
        constructor; auto; simpl; unfold not_dot at 1; now rewrite E.
Qed.

(** X1. What [_split] returns is never empty, and every segment is a
    non-empty string without a dot; the path was a string, not [None]. *)
Theorem _split_ok_shape (path : option string) (parts : list string) :
  _split path = OK parts ->
  (exists p, path = Some p) /\
  parts <> [] /\
  Forall (fun s => PyStr.truthy s = true /\ all_chars not_dot s = true) parts.
Proof.
  intros H. split; [|split].
  - destruct path; [eauto|discriminate].
  - intros ->. apply _split_nonempty in H. discriminate.
  - unfold _split in H. destruct path as [p|]; [|discriminate].
    destruct (length _ =? 0)%nat; [discriminate|].
    inversion H; subst. apply Forall_forall. intros s I.
    apply filter_In in I. destruct I as [I T]. split; [exact T|].
    pose proof (split_pieces_no_dot (PyStr.strip p)) as F.
    rewrite Forall_forall in F. now apply F.
Qed.

Lemma _split_ok_shape_witness :
  ["a"; "b"; " c "] <> [] /\
  Forall (fun s => PyStr.truthy s = true /\ all_chars not_dot s = true)
         ["a"; "b"; " c "].
Proof.
  exact (proj2 (@_split_ok_shape (Some "  a..b. c .  ") ["a"; "b"; " c "]
                  eq_refl)).
Defined.

Lemma all_space_lstrip s :
  PyStr.all_space s = true -> PyStr.lstrip s = "".
Proof.
  unfold PyStr.all_space. destruct (PyStr.lstrip s); [reflexivity|discriminate].
Qed.

Lemma rstrip_all_space s :
  PyStr.all_space s = true -> PyStr.rstrip s = "".
Proof.
  destruct s as [|c r]; [reflexivity|]. intros H. now rewrite rstrip_cons, H.
Qed.

(** Each of the white-space characters, alone, is white space. *)
Lemma space_chars_all_space :
  forallb PyStr.all_space PyStr.space_chars = true.
Proof. reflexivity. Qed.

Lemma is_dot_not_space c : is_dot c = true -> ascii_non_space c = true.
Proof.
  unfold is_dot. intros H. apply Ascii.eqb_eq in H. now subst.
Qed.

Lemma all_chars_impl (P Q : ascii -> bool) s :
  (forall c, P c = true -> Q c = true) ->
  all_chars P s = true -> all_chars Q s = true.
Proof.
  intros I. induction s as [|c r IH]; simpl; auto.
  rewrite !andb_true_iff. intros [C R]. auto.
Qed.

Lemma split_all_dots s :
  all_chars is_dot s = true ->
  filter PyStr.truthy (PyStr.split "." s) = [].
Proof.
  induction s as [|c r IH]; simpl; auto.
  unfold is_dot at 1. intros H. apply andb_true_iff in H. destruct H as [C R].
  rewrite C. simpl. auto.
Qed.

(** X2. A path made of white-space characters only (any of those
    [str.strip] removes, ASCII or not), or of dots only, is rejected with
    [InvalidPath] carrying the path as given. *)
Theorem _split_rejects_blank (p : string) :
  PyStr.all_space p = true \/ all_chars is_dot p = true ->
  _split (Some p) = Raise (ConfigInvalidPathError p "Path cannot be empty.").
Proof.
  intros [H|H]; unfold _split.
  - unfold PyStr.strip. now rewrite (all_space_lstrip _ H).
  - rewrite strip_no_space
      by (eapply all_chars_impl; [apply is_dot_not_space|exact H]).
    now rewrite (split_all_dots _ H).
Qed.

(** The witness is the path NO-BREAK SPACE, IDEOGRAPHIC SPACE, TAB. *)
Lemma _split_rejects_blank_witness :
  let p := String "194" (String "160"
             (String "227" (String "128" (String "128" (String "009" ""))))) in
  _split (Some p) = Raise (ConfigInvalidPathError p "Path cannot be empty.").
Proof. apply _split_rejects_blank. left. reflexivity. Defined.

Lemma lstrip_app_space_bounded n :
  forall l s,
    String.length l <= n ->
    PyStr.all_space l = true ->
    PyStr.lstrip (l ++ s) = PyStr.lstrip s.
Proof.
  induction n as [|n IH]; intros l s Hl H.
  - destruct l; [reflexivity|simpl in Hl; lia].
  - destruct l as [|c r]; [reflexivity|].
    unfold PyStr.all_space in H. rewrite lstrip_cons in H.
    cbn [append]. rewrite lstrip_cons.
    destruct (PyStr.space1 c).
    { apply IH; [simpl in Hl; lia|exact H]. }
    destruct r as [|d r2]; [discriminate H|].
    cbn [append].
    destruct (PyStr.space2 c d).
    { apply IH; [simpl in Hl; lia|exact H]. }
    destruct r2 as [|e r3]; [discriminate H|].
    cbn [append].
    destruct (PyStr.space3 c d e).
    { apply IH; [simpl in Hl; lia|exact H]. }
    discriminate H.
Qed.

(** White space in front of a string is stripped whatever follows. *)
Lemma lstrip_app_space l s :
  PyStr.all_space l = true ->
  PyStr.lstrip (l ++ s) = PyStr.lstrip s.
Proof. apply lstrip_app_space_bounded with (n := String.length l). lia. Qed.

Lemma rstrip_app_space s r :
  PyStr.truthy s = true ->
  all_chars ascii_non_space s = true ->
  PyStr.all_space r = true ->
  PyStr.rstrip (s ++ r) = s.
Proof.
  intros T N R. induction s as [|c s' IH]; [discriminate|].
  cbn [all_chars] in N. apply andb_true_iff in N. destruct N as [C N'].
  cbn [append]. rewrite rstrip_cons, all_space_head by assumption.
  destruct s' as [|c' s''].
  - cbn [append]. now rewrite (rstrip_all_space _ R).
  - now rewrite IH.
Qed.

Lemma lstrip_head_no_space s r :
  PyStr.truthy s = true ->
  all_chars ascii_non_space s = true ->
  PyStr.lstrip (s ++ r) = (s ++ r)%string.
Proof.
  destruct s as [|c s']; [discriminate|]. cbn [all_chars append]. intros _ N.
  apply andb_true_iff in N. destruct N as [C _].
  now apply lstrip_head.
Qed.

(** Any sequence of white-space characters is white space throughout. *)
Lemma concat_space_chars_all_space ws :
  Forall (fun w => In w PyStr.space_chars) ws ->
  PyStr.all_space (String.concat "" ws) = true.
Proof.
  assert (A : forall w, In w PyStr.space_chars -> PyStr.all_space w = true).
  { pose proof space_chars_all_space as F. rewrite forallb_forall in F.
    exact F. }
  induction 1 as [|w ws Hw _ IH]; [reflexivity|].
  destruct ws as [|w' ws'].
  - now apply A.
  - change (String.concat "" (w :: w' :: ws'))
      with (w ++ String.concat "" (w' :: ws'))%string.
    unfold PyStr.all_space in *.
    now rewrite lstrip_app_space by (apply A; assumption).
Qed.

(** X3. White space around a path is ignored: a path written as plain
    segments (ASCII, no white space, no dot) joined by dots, with any
    white-space characters before and after, normalises to exactly those
    segments. *)
Theorem _split_ignores_padding (l r : string) (parts : list string) :
  parts <> [] ->
  Forall (fun s => plain_segment s = true) parts ->
  PyStr.all_space l = true ->
  PyStr.all_space r = true ->
  _split (Some (l ++ PyStr.join "." parts ++ r)%string) = OK parts.
Proof.
  intros NE F L R.
  assert (S : _split (Some (PyStr.join "." parts)) = OK parts)
    by now apply _split_join_plain.
  assert (N : all_chars ascii_non_space (PyStr.join "." parts) = true).
  { apply join_no_space. eapply Forall_impl; [|exact F].
    intros s H. now apply plain_segment_inv in H. }
  assert (T : PyStr.truthy (PyStr.join "." parts) = true).
  { destruct parts as [|s rest]; [congruence|]. apply truthy_join.
    inversion F; subst. now apply plain_segment_inv. }
  assert (E : PyStr.strip (l ++ PyStr.join "." parts ++ r) =
              PyStr.join "." parts).
  { unfold PyStr.strip.
    rewrite lstrip_app_space, lstrip_head_no_space by assumption.
    now apply rstrip_app_space. }
  unfold _split in *. rewrite E.
  rewrite strip_no_space in S by assumption.
  destruct (length _ =? 0)%nat; [discriminate S|exact S].
Qed.

(** The witness pads with NO-BREAK SPACE and SPACE in front, and LINE
    SEPARATOR (U+2028) behind. *)
Lemma _split_ignores_padding_witness :
  _split (Some (String "194" (String "160" " ") ++
                PyStr.join "." ["server"; "port"] ++
                String "226" (String "128" (String "168" "")))%string) =
  OK ["server"; "port"].
Proof.
  apply _split_ignores_padding; try reflexivity.
  - discriminate.
  - repeat constructor.
Defined.

(** ** [get] and [set]: what they leave alone *)

Lemma _split_raises path e :
  _split path = Raise e -> exists s m, e = ConfigInvalidPathError s m.
Proof.
  unfold _split. destruct path as [p|].
  - destruct (length _ =? 0)%nat; [|discriminate].
    intros H. inversion H. eauto.
  - intros H. inversion H. eauto.
Qed.

Lemma _split_some path parts : _split path = OK parts -> exists p, path = Some p.
Proof. destruct path; [eauto|discriminate]. Qed.

(** X4. [get] never changes the tree, whatever it is given, and raises
    nothing but [InvalidPath] and [PathNotFound] (with the path asked). *)
Theorem get_is_read_only (path : option string) (t : ConfigTree) :
  after (get path) t = t /\
  match outcome (get path) t with
  | OK _ => True
  | Raise (ConfigInvalidPathError _ _) => True
  | Raise (ConfigPathNotFoundError s) => s = pstr path
  | Raise _ => False
  end.
Proof.
  unfold after, outcome.
  destruct (_split path) as [parts|e] eqn:S.
  - destruct (_split_some _ S) as [p ->].
    erewrite get_spec by eassumption. simpl.
    destruct (deref parts (root t)); simpl; auto.
  - unfold get, _walk, bind, lift. rewrite S. simpl.
    destruct (_split_raises _ S) as (s & m & ->). auto.
Qed.

(** X5. A [set] that raises leaves the tree exactly as it was.  It raises
    only [InvalidPath] (from the normalisation, never the "Empty path"
    message of its own), [StrictModeViolation] (only on a strict tree) or
    [NodeStructureError], each with the path as given; never
    [PathNotFound]. *)
Theorem set_failure_leaves_tree (path : option string) (v : scalar)
        (t : ConfigTree) (e : error) :
  outcome (set path v) t = Raise e ->
  after (set path v) t = t /\
  match e with
  | ConfigInvalidPathError _ msg => msg <> "Empty path is not allowed."
  | ConfigStrictModeError s => s = pstr path /\ strict_mode t = true
  | ConfigNodeStructureError s _ => s = pstr path
  | _ => False
  end.
Proof.
  unfold after, outcome.
  destruct (_split path) as [parts|e'] eqn:S.
  - destruct (_split_some _ S) as [p ->].
    destruct (deref parts (root t)) as [x|] eqn:D.
    + erewrite set_existing by eassumption.
      destruct (0 <? length (children x))%nat; simpl; [|discriminate].
      intros H. inversion H; subst. auto.
    + destruct (strict_mode t) eqn:St.
      * erewrite set_missing_strict by eassumption. simpl.
        intros H. inversion H; subst. auto.
      * erewrite set_missing_lenient by eassumption. discriminate.
  - unfold set, bind, lift. rewrite S. simpl.
    intros H. inversion H; subst. split; [reflexivity|].
    unfold _split in S. destruct path as [p|].
    + destruct (length _ =? 0)%nat; inversion S. discriminate.
    + inversion S. discriminate.
Qed.

Lemma set_failure_leaves_tree_witness :
  let t := after (set (Some "a.b") (SInt 1)) (ConfigTree_init false) in
  after (set (Some "a") (SInt 2)) t = t.
Proof.
  exact (proj1 (@set_failure_leaves_tree (Some "a") (SInt 2)
                  (after (set (Some "a.b") (SInt 1)) (ConfigTree_init false))
                  (ConfigNodeStructureError "a" structure_msg) eq_refl)).
Defined.

(** X6. On a lenient tree, [set] succeeds on every valid path whose node
    either does not exist yet or has no children. *)
Theorem set_lenient_succeeds (p : string) (parts : list string) (v : scalar)
        (t : ConfigTree) :
  strict_mode t = false ->
  _split (Some p) = OK parts ->
  (forall x, deref parts (root t) = Some x -> children x = []) ->
  outcome (set (Some p) v) t = OK v.
Proof.
  intros St S C. unfold outcome.
  destruct (deref parts (root t)) as [x|] eqn:D.
  - erewrite set_existing by eassumption. now rewrite (C x eq_refl).
  - now erewrite set_missing_lenient by eassumption.
Qed.

Lemma set_lenient_succeeds_witness :
  let t := after (set (Some "a") (SInt 1)) (ConfigTree_init false) in
  outcome (set (Some "a.b.c") (SStr "deep")) t = OK (SStr "deep").
Proof.
  apply set_lenient_succeeds with (parts := ["a"; "b"; "c"]);
    try reflexivity.
  intros x H. discriminate H.
Defined.

Lemma update_update a f g n :
  update a g (update a f n) = update a (fun x => g (f x)) n.
Proof.
  revert n. induction a as [|k r IH]; intros n; simpl; auto.
  destruct (PyDict.get k (children n)) as [c|] eqn:E.
  - simpl. rewrite get_set_same, with_child_twice. now rewrite IH.
  - now rewrite E.
Qed.

Lemma update_ext a f g n :
  (forall x, f x = g x) -> update a f n = update a g n.
Proof.
  intros H. revert n. induction a as [|k r IH]; intros n; simpl; auto.
  destruct (PyDict.get k (children n)); auto. now rewrite IH.
Qed.

(** The tree a successful [set] leaves, by what was walked. *)
Lemma set_ok_root p parts v w t t' :
  _split (Some p) = OK parts ->
  set (Some p) v t = (OK w, t') ->
  exists n' x,
    deref parts n' = Some x /\
    t' = mkTree (update parts (assign_leaf v) n') (strict_mode t) /\
    forall v', set (Some p) v' t =
               (OK v', mkTree (update parts (assign_leaf v') n') (strict_mode t)).
Proof.
  intros S H.
  destruct (deref parts (root t)) as [x|] eqn:D.
  - erewrite set_existing in H by eassumption.
    destruct (0 <? length (children x))%nat eqn:G; [discriminate|].
    inversion H; subst. exists (root t), x. repeat split; auto.
    intros v'. erewrite set_existing by eassumption. now rewrite G.
  - destruct (strict_mode t) eqn:St.
    + erewrite set_missing_strict in H by eassumption. discriminate.
    + erewrite set_missing_lenient in H by eassumption. inversion H; subst.
      destruct (walk_loop_lenient_total p parts (root t)) as (n' & x & W).
      destruct (walk_loop_reach _ _ _ _ _ W) as [_ R]. simpl in R.
      exists n', x. rewrite W. simpl. repeat split; auto.
      intros v'. erewrite set_missing_lenient by eassumption.
      now rewrite W.
Qed.

(** X7. The last write wins.  After a successful [set(p, v)], a second
    [set(p, v')] succeeds too, on a strict tree as well, [get(p)] returns
    [v'], and the tree is the one [set(p, v')] alone would have left. *)
Theorem set_overwrite (p : string) (v v' w : scalar) (t t1 : ConfigTree) :
  set (Some p) v t = (OK w, t1) ->
  let t2 := after (set (Some p) v') t1 in
  set (Some p) v' t1 = (OK v', t2) /\
  get (Some p) t2 = (OK (PScalar v'), t2) /\
  t2 = after (set (Some p) v') t.
Proof.
  intros H. cbv zeta.
  destruct (_split (Some p)) as [parts|e] eqn:S.
  2:{ unfold set, bind, lift in H. rewrite S in H. discriminate. }
  destruct (@set_ok_root p parts v w t t1 S H) as (n' & x & D & -> & A).
  assert (D1 : deref parts (update parts (assign_leaf v) n') =
               Some (assign_leaf v x)) by (now rewrite deref_update, D).
  unfold after. rewrite (A v').
  erewrite set_existing by (cbn [root]; eassumption).
  cbn [children assign_leaf length Nat.ltb Nat.leb root strict_mode snd].
  rewrite update_update.
  rewrite (@update_ext parts (fun x0 => assign_leaf v' (assign_leaf v x0))
             (assign_leaf v') n' (fun _ => eq_refl)).
  repeat split.
  erewrite get_spec by eassumption. cbn [root].
  now rewrite deref_update, D.
Qed.

Lemma set_overwrite_witness :
  let t1 := after (set (Some "port") (SInt 8080)) (ConfigTree_init false) in
  let t2 := after (set (Some "port") (SStr "8080")) t1 in
  get (Some "port") t2 = (OK (PScalar (SStr "8080")), t2).
Proof.
  exact (proj1 (proj2 (@set_overwrite "port" (SInt 8080) (SStr "8080")
                         (SInt 8080) (ConfigTree_init false) _ eq_refl))).
Defined.

(** ** Paths that part ways *)

Lemma diverge_nonempty_r a b : diverge a b = true -> b <> [].
Proof. destruct a, b; simpl; congruence. Qed.

Lemma deref_fresh_below k b : b <> [] -> deref b (Node_init k) = None.
Proof. destruct b; [congruence|reflexivity]. Qed.

Lemma deref_cons_with_child k k2 b n c :
  deref (k2 :: b) (with_child n k c) =
  if String.eqb k2 k then deref b c else deref (k2 :: b) n.
Proof.
  simpl. destruct (String.eqb_spec k2 k).
  - subst. now rewrite get_set_same.
  - now rewrite get_set_other.
Qed.

(** A mutation at [a] is not seen at an address that parts ways with [a]. *)
Lemma deref_update_diverge a b f n :
  diverge a b = true -> deref b (update a f n) = deref b n.
Proof.
  revert b n. induction a as [|k1 a IH]; intros [|k2 b] n H; simpl in H;
    try discriminate.
  cbn [update]. destruct (PyDict.get k1 (children n)) as [c|] eqn:E; auto.
  rewrite deref_cons_with_child. rewrite String.eqb_sym in H.
  destruct (String.eqb_spec k2 k1); auto.
  subst. rewrite (IH _ _ H). simpl. now rewrite E.
Qed.

(** Nor are the nodes a walk along [a] creates. *)
Lemma deref_walk_diverge strict create path a b n :
  diverge a b = true ->
  deref b (fst (walk_loop strict create path a n)) = deref b n.
Proof.
  revert b n. induction a as [|k1 a IH]; intros [|k2 b] n H; simpl in H;
    try discriminate.
  cbn [walk_loop]. rewrite String.eqb_sym in H.
  destruct (PyDict.get k1 (children n)) as [c|] eqn:E.
  - specialize (IH b c).
    destruct (walk_loop strict create path a c) as [c' r]. cbn [fst] in *.
    rewrite deref_cons_with_child.
    destruct (String.eqb_spec k2 k1); auto.
    subst. rewrite (IH H). simpl. now rewrite E.
  - destruct create; [|reflexivity]. destruct strict; [reflexivity|].
    specialize (IH b (Node_init k1)).
    destruct (walk_loop false true path a (Node_init k1)) as [c' r].
    cbn [fst] in *. rewrite deref_cons_with_child.
    destruct (String.eqb_spec k2 k1); auto.
    subst. rewrite (IH H). simpl. rewrite E.
    apply deref_fresh_below. now apply diverge_nonempty_r in H.
Qed.

(** X8. [set(p, v)] does not disturb paths that part ways with [p]:
    whatever [get(q)] gave before (a value, a mapping or [PathNotFound]),
    it gives after, whether the [set] succeeded or raised. *)
Theorem set_leaves_other_paths (p q : string) (a b : list string)
        (v : scalar) (t : ConfigTree) :
  _split (Some p) = OK a ->
  _split (Some q) = OK b ->
  diverge a b = true ->
  outcome (get (Some q)) (after (set (Some p) v) t) =
  outcome (get (Some q)) t.
Proof.
  intros Sp Sq Dv. unfold outcome, after.
  rewrite !(get_spec _ _ Sq). cbn [fst].
  assert (E : deref b (root (snd (set (Some p) v t))) = deref b (root t)).
  { destruct (deref a (root t)) as [x|] eqn:D.
    - erewrite set_existing by eassumption.
      destruct (0 <? length (children x))%nat; simpl; auto.
      now apply deref_update_diverge.
    - destruct (strict_mode t) eqn:St.
      + now erewrite set_missing_strict by eassumption.
      + erewrite set_missing_lenient by eassumption. simpl.
        rewrite deref_update_diverge by assumption.
        now apply deref_walk_diverge. }
  now rewrite E.
Qed.

Lemma set_leaves_other_paths_witness :
  let t := after (set (Some "server.port") (SInt 8080)) (ConfigTree_init false) in
  outcome (get (Some "server.port")) (after (set (Some "server.name.first") SNull) t) =
  outcome (get (Some "server.port")) t.
Proof.
  apply set_leaves_other_paths
    with (a := ["server"; "name"; "first"]) (b := ["server"; "port"]);
    reflexivity.
Defined.

(** X9. A successful [set] makes every proper prefix of its path resolve:
    [get] of a prefix returns a mapping, and the next segment of the path is
    one of its keys. *)
Theorem set_makes_prefixes_resolve (p q : string) (pre : list string)
        (k : string) (suf : list string) (v w : scalar) (t t' : ConfigTree) :
  set (Some p) v t = (OK w, t') ->
  _split (Some p) = OK (pre ++ k :: suf) ->
  _split (Some q) = OK pre ->
  exists items,
    get (Some q) t' = (OK (PDict items), t') /\
    In (KStr k) (map fst items).
Proof.
  intros H Sp Sq.
  destruct (@set_ok_root p (pre ++ k :: suf) v w t t' Sp H)
    as (n' & x & D & -> & _).
  assert (D' : deref (pre ++ k :: suf)
                     (update (pre ++ k :: suf) (assign_leaf v) n') =
               Some (assign_leaf v x)) by (now rewrite deref_update, D).
  rewrite deref_app in D'.
  destruct (deref pre (update (pre ++ k :: suf) (assign_leaf v) n'))
    as [y|] eqn:Dy; [|discriminate].
  simpl in D'.
  destruct (PyDict.get k (children y)) as [c|] eqn:G; [|discriminate].
  exists (prim_of_children (children y)). split.
  - erewrite get_spec by eassumption. cbn [root]. rewrite Dy.
    rewrite to_primitive_interior; [reflexivity|].
    intros E. rewrite E in G. discriminate.
  - apply get_Some_in in G. unfold prim_of_children. rewrite map_map.
    apply in_map_iff. exists (k, c). auto.
Qed.

Lemma set_makes_prefixes_resolve_witness :
  let t' := after (set (Some "a.b.c") (SInt 1)) (ConfigTree_init false) in
  exists items,
    get (Some "a.b") t' = (OK (PDict items), t') /\
    In (KStr "c") (map fst items).
Proof.
  apply (@set_makes_prefixes_resolve "a.b.c" "a.b" ["a"; "b"] "c" []
           (SInt 1) (SInt 1) (ConfigTree_init false)); reflexivity.
Defined.

(** ** [delete]: when the tree changes, and what it leaves alone *)

Lemma is_root_path_true parts : is_root_path parts = true -> parts = ["root"].
Proof.
  unfold is_root_path. destruct parts as [|k [|k' r]]; simpl; try discriminate.
  intros H. apply String.eqb_eq in H. now subst.
Qed.

Lemma parent_addr_raises parts e :
  parent_addr parts = Raise e -> exists s m, e = ConfigInvalidPathError s m.
Proof.
  unfold parent_addr. destruct (PyStr.truthy (parent_path parts)).
  - apply _split_raises.
  - discriminate.
Qed.

Lemma mem_true_get (V : Type) k (d : PyDict.t V) :
  PyDict.mem k d = true -> exists v, PyDict.get k d = Some v.
Proof. unfold PyDict.mem. destruct (PyDict.get k d); [eauto|discriminate]. Qed.

(** X10. [delete] changes the tree exactly when it returns true.  When it
    returns false or raises, the tree is as it was; it raises only
    [InvalidPath], or [NodeStructureError] for a path that normalises to the
    single segment ["root"]. *)
Theorem delete_changes_tree_iff_true (path : option string) (t : ConfigTree) :
  match outcome (delete path) t with
  | OK true => after (delete path) t <> t
  | OK false => after (delete path) t = t
  | Raise (ConfigInvalidPathError _ _) => after (delete path) t = t
  | Raise (ConfigNodeStructureError s m) =>
      after (delete path) t = t /\ s = pstr path /\ m = root_msg /\
      _split path = OK ["root"]
  | Raise _ => False
  end.
Proof.
  unfold outcome, after.
  destruct (_split path) as [parts|e] eqn:S.
  2:{ unfold delete, bind, lift. rewrite S. simpl.
      destruct (_split_raises _ S) as (s & m & ->). reflexivity. }
  destruct (_split_some _ S) as [p ->].
  destruct (is_root_path parts) eqn:R.
  { unfold delete, bind, lift. rewrite S. fold (is_root_path parts).
    rewrite R. simpl. apply is_root_path_true in R. subst. auto. }
  erewrite delete_spec by eassumption.
  destruct (parent_addr parts) as [pparts|e] eqn:A.
  2:{ destruct (parent_addr_raises _ A) as (s & m & ->). reflexivity. }
  destruct (deref pparts (root t)) as [par|] eqn:D; [|reflexivity].
  destruct (PyDict.mem (last parts "") (children par)) eqn:Mm; [|reflexivity].
  simpl. intros E.
  assert (B : deref (pparts ++ [last parts ""]) (root t) <> None).
  { rewrite deref_app, D. simpl.
    destruct (mem_true_get _ _ Mm) as [c ->]. discriminate. }
  apply B. rewrite <- E at 1. cbn [root].
  rewrite deref_update_below, D. apply deref_popped.
Qed.

Lemma get_pop_other (V : Type) k k' (d : PyDict.t V) :
  k <> k' -> PyDict.get k (PyDict.pop k' d) = PyDict.get k d.
Proof.
  intros N. induction d as [|[k2 v2] d IH]; simpl; auto.
  destruct (String.eqb_spec k' k2).
  - subst. destruct (String.eqb_spec k k2); [congruence|auto].
  - simpl. now rewrite IH.
Qed.

Lemma deref_pop_diverge pp key b n :
  diverge (pp ++ [key]) b = true ->
  deref b (update pp (pop_child key) n) = deref b n.
Proof.
  revert b n. induction pp as [|k1 pp IH]; intros [|k2 b] n H; simpl in H;
    try discriminate.
  - destruct (String.eqb_spec key k2).
    + destruct b; discriminate.
    + simpl. rewrite get_pop_other; auto.
  - cbn [update]. destruct (PyDict.get k1 (children n)) as [c|] eqn:E; auto.
    rewrite deref_cons_with_child. rewrite String.eqb_sym in H.
    destruct (String.eqb_spec k2 k1); auto.
    subst. rewrite (IH _ _ H). simpl. now rewrite E.
Qed.

Lemma deref_split_last parts n :
  parts <> [] ->
  deref parts n =
  match deref (removelast parts) n with
  | Some x => deref [last parts ""] x
  | None => None
  end.
Proof.
  intros NE. rewrite (app_removelast_last "" NE) at 1. apply deref_app.
Qed.

(** What [delete] does on a path of plain segments other than ["root"]. *)
Lemma delete_plain_spec p parts t :
  _split (Some p) = OK parts ->
  is_root_path parts = false ->
  Forall (fun s => plain_segment s = true) parts ->
  delete (Some p) t =
  match deref parts (root t) with
  | Some _ =>
      (OK true,
       mkTree (update (removelast parts) (pop_child (last parts "")) (root t))
              (strict_mode t))
  | None => (OK false, t)
  end.
Proof.
  intros S R F.
  assert (NE : parts <> []).
  { intros ->. apply _split_nonempty in S. discriminate. }
  erewrite delete_spec by eassumption.
  rewrite (plain_parent_reparses F).
  rewrite (deref_split_last _ NE).
  destruct (deref (removelast parts) (root t)) as [par|]; [|reflexivity].
  simpl. unfold PyDict.mem.
  destruct (PyDict.get (last parts "") (children par)); reflexivity.
Qed.

(** X11. On a path of plain segments other than ["root"], [delete] returns
    true exactly when [get] of the path would have succeeded, and false
    otherwise: it never raises. *)
Theorem delete_returns_presence (p : string) (parts : list string)
        (t : ConfigTree) :
  _split (Some p) = OK parts ->
  is_root_path parts = false ->
  Forall (fun s => plain_segment s = true) parts ->
  outcome (delete (Some p)) t =
  OK (match outcome (get (Some p)) t with OK _ => true | Raise _ => false end).
Proof.
  intros S R F. unfold outcome.
  erewrite delete_plain_spec, get_spec by eassumption.
  destruct (deref parts (root t)); reflexivity.
Qed.

(** The witness deletes a leaf that is there (true), then the same path
    again (false). *)
Lemma delete_returns_presence_witness :
  let t := after (set (Some "a.b") (SInt 1)) (ConfigTree_init false) in
  outcome (delete (Some "a.b")) t = OK true /\
  outcome (delete (Some "a.b")) (after (delete (Some "a.b")) t) = OK false.
Proof.
  cbv zeta. split.
  - apply (@delete_returns_presence "a.b" ["a"; "b"]
             (after (set (Some "a.b") (SInt 1)) (ConfigTree_init false)));
      try reflexivity.
    repeat constructor.
  - apply (@delete_returns_presence "a.b" ["a"; "b"]
             (after (delete (Some "a.b"))
                (after (set (Some "a.b") (SInt 1)) (ConfigTree_init false))));
      try reflexivity.
    repeat constructor.
Defined.

(** X12. Deleting twice: after a [delete] that returned true, the same
    [delete] returns false and changes nothing, on every path. *)
Theorem delete_twice (path : option string) (t t' : ConfigTree) :
  delete path t = (OK true, t') ->
  delete path t' = (OK false, t').
Proof.
  intros D.
  destruct (_split path) as [parts|e] eqn:S.
  2:{ unfold delete, bind, lift in D. rewrite S in D. discriminate. }
  destruct (_split_some _ S) as [p ->].
  destruct (is_root_path parts) eqn:R.
  { unfold delete, bind, lift in D. rewrite S in D.
    fold (is_root_path parts) in D. rewrite R in D. discriminate. }
  rewrite (@delete_spec p parts t S R) in D.
  rewrite (@delete_spec p parts t' S R).
  destruct (parent_addr parts) as [pparts|e]; [|discriminate].
  destruct (deref pparts (root t)) as [par|] eqn:P; [|discriminate].
  destruct (PyDict.mem (last parts "") (children par)); [|discriminate].
  inversion D; subst; clear D. cbn [root strict_mode].
  rewrite deref_update, P. unfold PyDict.mem, pop_child. cbn [children].
  now rewrite get_pop_same.
Qed.

Lemma delete_twice_witness :
  let t := after (set (Some "a.b") (SInt 1)) (ConfigTree_init false) in
  let t' := after (delete (Some "a.b")) t in
  delete (Some "a.b") t' = (OK false, t').
Proof.
  apply (@delete_twice (Some "a.b")
           (after (set (Some "a.b") (SInt 1)) (ConfigTree_init false))).
  reflexivity.
Defined.

(** X13. On a path of plain segments, [delete(p)] does not disturb paths
    that part ways with [p]: [get(q)] gives afterwards what it gave
    before. *)
Theorem delete_leaves_other_paths (p q : string) (a b : list string)
        (t : ConfigTree) :
  _split (Some p) = OK a ->
  Forall (fun s => plain_segment s = true) a ->
  _split (Some q) = OK b ->
  diverge a b = true ->
  outcome (get (Some q)) (after (delete (Some p)) t) =
  outcome (get (Some q)) t.
Proof.
  intros Sp F Sq Dv. unfold outcome, after.
  rewrite !(get_spec _ _ Sq). cbn [fst].
  assert (NE : a <> []).
  { intros ->. apply _split_nonempty in Sp. discriminate. }
  destruct (is_root_path a) eqn:R.
  { unfold delete, bind, lift. rewrite Sp. fold (is_root_path a).
    now rewrite R. }
  rewrite (@delete_plain_spec p a t Sp R F).
  destruct (deref a (root t)); [|reflexivity].
  cbn [snd root]. rewrite deref_pop_diverge; [reflexivity|].
  now rewrite <- (app_removelast_last "" NE).
Qed.

Lemma delete_leaves_other_paths_witness :
  let t0 := after (set (Some "a.b") (SInt 1)) (ConfigTree_init false) in
  let t := after (set (Some "a.c") (SInt 2)) t0 in
  outcome (get (Some "a.c")) (after (delete (Some "a.b")) t) =
  outcome (get (Some "a.c")) t.
Proof.
  apply delete_leaves_other_paths with (a := ["a"; "b"]) (b := ["a"; "c"]);
    try reflexivity.
  repeat constructor.
Defined.

(** ** [set] undone by [delete] *)

Lemma update_app a b f n :
  update (a ++ b) f n = update a (update b f) n.
Proof.
  revert n. induction a as [|k r IH]; intros n; simpl; auto.
  destruct (PyDict.get k (children n)); auto. now rewrite IH.
Qed.

Lemma update_id_at a f n x :
  deref a n = Some x -> f x = x -> update a f n = n.
Proof.
  revert n. induction a as [|k r IH]; intros n D E; simpl in *.
  - inversion D; subst. exact E.
  - destruct (PyDict.get k (children n)) as [c|] eqn:G; [|reflexivity].
    rewrite (IH _ D E). now apply with_child_same.
Qed.

Lemma update_ext_at a f g n x :
  deref a n = Some x -> f x = g x -> update a f n = update a g n.
Proof.
  revert n. induction a as [|k r IH]; intros n D E; simpl in *.
  - inversion D; subst. exact E.
  - destruct (PyDict.get k (children n)) as [c|] eqn:G; [|reflexivity].
    now rewrite (IH _ D E).
Qed.

(** A creating walk whose last segment alone is missing adds one empty node
    under the parent. *)
Lemma walk_loop_create_last path pp key n par :
  deref pp n = Some par ->
  PyDict.get key (children par) = None ->
  fst (walk_loop false true path (pp ++ [key]) n) =
  update pp (fun x => with_child x key (Node_init key)) n.
Proof.
  revert n. induction pp as [|k r IH]; intros n D G; simpl in *.
  - inversion D; subst. now rewrite G.
  - destruct (PyDict.get k (children n)) as [c|] eqn:E; [|discriminate].
    specialize (IH c D G).
    destruct (walk_loop false true path (r ++ [key]) c). simpl in *.
    now rewrite IH.
Qed.

Lemma pop_set (V : Type) k v (d : PyDict.t V) :
  PyDict.pop k (PyDict.set k v d) = PyDict.pop k d.
Proof.
  induction d as [|[k' v'] d IH]; simpl.
  - now rewrite String.eqb_refl.
  - destruct (String.eqb k k') eqn:E; simpl; rewrite E; auto.
    now rewrite IH.
Qed.

Lemma pop_absent (V : Type) k (d : PyDict.t V) :
  PyDict.get k d = None -> PyDict.pop k d = d.
Proof.
  induction d as [|[k' v'] d IH]; simpl; auto.
  destruct (String.eqb k k'); [discriminate|].
  intros H. now rewrite IH.
Qed.

(** X14. [delete] undoes a [set] that created one leaf.  On a lenient tree,
    for a path of plain segments other than ["root"] whose parent exists
    and has no child of the last segment's name, [set(p, v)] followed by
    [delete(p)] returns true and gives back the tree exactly as it was. *)
Theorem set_then_delete_restores (p : string) (parts : list string)
        (v : scalar) (t : ConfigTree) (par : Node) :
  strict_mode t = false ->
  _split (Some p) = OK parts ->
  is_root_path parts = false ->
  Forall (fun s => plain_segment s = true) parts ->
  deref (removelast parts) (root t) = Some par ->
  PyDict.get (last parts "") (children par) = None ->
  outcome (set (Some p) v) t = OK v /\
  delete (Some p) (after (set (Some p) v) t) = (OK true, t).
Proof.
  intros St S R F P G.
  assert (NE : parts <> []).
  { intros ->. apply _split_nonempty in S. discriminate. }
  remember (removelast parts) as pp eqn:Epp.
  remember (last parts "") as key eqn:Ekey.
  assert (Eparts : parts = pp ++ [key])
    by (subst; now apply app_removelast_last).
  assert (D : deref parts (root t) = None).
  { rewrite Eparts, deref_app, P. simpl. now rewrite G. }
  unfold outcome, after.
  erewrite set_missing_lenient by eassumption. split; [reflexivity|].
  cbn [snd].
  rewrite delete_plain_spec with (parts := parts) by assumption.
  cbn [root strict_mode].
  rewrite <- Epp, <- Ekey. rewrite Eparts.
  erewrite walk_loop_create_last by eassumption.
  rewrite deref_update, deref_update_below, P.
  cbn [deref with_child children]. rewrite get_set_same.
  rewrite update_app, !update_update.
  rewrite update_id_at with (x := par); auto.
  - destruct t as [rt st]. simpl in St. now subst.
  - unfold pop_child, with_child. simpl.
    rewrite get_set_same. simpl.
    rewrite !pop_set, pop_absent by assumption. apply Node_eta.
Qed.

Lemma set_then_delete_restores_witness :
  let t := after (set (Some "a.b") (SInt 1)) (ConfigTree_init false) in
  delete (Some "a.c") (after (set (Some "a.c") (SBool true)) t) = (OK true, t).
Proof.
  cbv zeta.
  eapply (proj2 (@set_then_delete_restores "a.c" ["a"; "c"] (SBool true)
                   (after (set (Some "a.b") (SInt 1)) (ConfigTree_init false))
                   _ eq_refl eq_refl eq_refl _ eq_refl eq_refl)).
  Unshelve. repeat constructor.
Defined.

(** ** Validation first, and the strict-mode flag *)

(** X15. A path that does not normalise is rejected by [get], [set] and
    [delete] alike, with the error of [_split], before the tree is looked
    at. *)
Theorem invalid_path_rejected_everywhere (path : option string) (e : error)
        (v : scalar) (t : ConfigTree) :
  _split path = Raise e ->
  get path t = (Raise e, t) /\
  set path v t = (Raise e, t) /\
  delete path t = (Raise e, t).
Proof.
  intros S. unfold get, set, delete, _walk, bind, lift.
  rewrite S. auto.
Qed.

Lemma invalid_path_rejected_everywhere_witness :
  let e := ConfigInvalidPathError "None" "Path cannot be None." in
  let t := ConfigTree_init true in
  get None t = (Raise e, t) /\
  set None SNull t = (Raise e, t) /\
  delete None t = (Raise e, t).
Proof.
  apply invalid_path_rejected_everywhere. reflexivity.
Defined.

(** X16. [set_strict_mode] changes the flag and nothing else, and the flag
    decides a later [set] on a path that does not resolve, whatever the
    tree was constructed with: strict raises [StrictModeViolation], lenient
    succeeds. *)
Theorem set_strict_mode_governs_creation (p : string) (parts : list string)
        (v : scalar) (enabled : bool) (t : ConfigTree) :
  _split (Some p) = OK parts ->
  deref parts (root t) = None ->
  let t' := after (set_strict_mode enabled) t in
  root t' = root t /\
  strict_mode t' = enabled /\
  outcome (set (Some p) v) t' =
  if enabled then Raise (ConfigStrictModeError p) else OK v.
Proof.
  intros S D. cbv zeta. unfold after, set_strict_mode, outcome. cbn [snd root].
  repeat split. destruct enabled.
  - now erewrite set_missing_strict by eauto.
  - now erewrite set_missing_lenient by eauto.
Qed.

Lemma set_strict_mode_governs_creation_witness :
  let t' := after (set_strict_mode false) (ConfigTree_init true) in
  outcome (set (Some "x.y") (SInt 1)) t' = OK (SInt 1).
Proof.
  exact (proj2 (proj2 (@set_strict_mode_governs_creation "x.y" ["x"; "y"]
                         (SInt 1) false (ConfigTree_init true)
                         eq_refl eq_refl))).
Defined.

(** X17. The strict-mode flag matters to [set] only: [get], [delete] and
    [to_dict] give the same outcome, and [delete] leaves the same root, on
    two trees that differ in the flag alone. *)
Theorem strict_mode_only_governs_set (path : option string) (r : Node)
        (s1 s2 : bool) :
  outcome (get path) (mkTree r s1) = outcome (get path) (mkTree r s2) /\
  outcome to_dict (mkTree r s1) = outcome to_dict (mkTree r s2) /\
  outcome (delete path) (mkTree r s1) = outcome (delete path) (mkTree r s2) /\
  root (after (delete path) (mkTree r s1)) =
  root (after (delete path) (mkTree r s2)).
Proof.
  unfold outcome, after.
  split; [|split; [reflexivity|]].
  - destruct (_split path) as [parts|e] eqn:S.
    + destruct (_split_some _ S) as [p ->].
      now rewrite !(get_spec _ _ S).
    + unfold get, _walk, bind, lift. now rewrite S.
  - destruct (_split path) as [parts|e] eqn:S.
    2:{ unfold delete, bind, lift. rewrite S. auto. }
    destruct (_split_some _ S) as [p ->].
    destruct (is_root_path parts) eqn:R.
    { unfold delete, bind, lift. rewrite S. fold (is_root_path parts).
      rewrite R. auto. }
    rewrite !(delete_spec _ _ S R). cbn [root strict_mode].
    destruct (parent_addr parts) as [pparts|e]; auto.
    destruct (deref pparts r) as [par|]; auto.
    destruct (PyDict.mem (last parts "") (children par)); auto.
Qed.

(** ** [load_dict] and [to_dict] *)

(** Building children from well-keyed items whose values convert back and
    forth: the children come out in order and project to the items. *)
Lemma build_children_of_items items :
  Forall (fun kv => forall nm, exists n,
              from_primitive nm (snd kv) = OK n /\ to_primitive n = snd kv)
         items ->
  (forall k, In k (map fst items) -> exists s, k = KStr s) ->
  NoDup (map fst items) ->
  forall acc,
    (forall s, In (KStr s) (map fst items) -> ~ In s (PyDict.keys acc)) ->
    exists cs,
      build_children from_primitive items acc = OK (acc ++ cs) /\
      prim_of_children cs = items.
Proof.
  induction 1 as [|[k v] items Hv _ IH]; intros Ks ND acc Dis; simpl.
  - exists []. now rewrite app_nil_r.
  - destruct (Ks k) as [s ->]; [simpl; auto|].
    inversion ND as [|? ? Nk ND']; subst.
    destruct (Hv s) as (c & Fc & Tc). simpl in Fc, Tc. rewrite Fc.
    rewrite set_fresh by (apply not_in_get_None, Dis; simpl; auto).
    destruct (IH (fun k' I => Ks k' (or_intror I)) ND' (acc ++ [(s, c)]))
      as (cs & B & E).
    + intros s' I. unfold PyDict.keys. rewrite map_app, in_app_iff. simpl.
      intros [J|[<-|[]]]; [|contradiction].
      apply (Dis s'); simpl; auto.
    + exists ((s, c) :: cs). rewrite B, <- app_assoc. simpl.
      now rewrite Tc, E.
Qed.

(** A well-keyed primitive converts to a node that projects back to it. *)
Lemma to_from_primitive d :
  well_keyed d ->
  forall nm, exists n, from_primitive nm d = OK n /\ to_primitive n = d.
Proof.
  induction d as [s|items IH] using prim_nested_ind; intros W nm.
  - simpl. eauto.
  - inversion W as [|? Ks ND Wv]; subst.
    destruct (@build_children_of_items items) with (acc := @nil (string * Node))
      as (cs & B & E); auto.
    + rewrite Forall_forall in *. intros [k v] I. apply IH; auto.
      simpl. eapply Wv; eauto.
    + cbn [from_primitive]. rewrite B. simpl. eexists. split; [reflexivity|].
      destruct cs as [|c cs'].
      * simpl in E. now subst.
      * rewrite to_primitive_interior by (simpl; congruence).
        simpl. now rewrite <- E.
Qed.

(** X18. Import then export.  For a mapping whose keys are strings at every
    depth (and distinct within each mapping, as in any Python dict),
    [load_dict] succeeds on any tree and [to_dict] then returns that very
    mapping: keys in order, nesting and scalars as given. *)
Theorem load_dict_then_to_dict (items : list (pykey * prim)) (t : ConfigTree) :
  well_keyed (PDict items) ->
  let t' := after (load_dict (PDict items)) t in
  load_dict (PDict items) t = (OK tt, t') /\
  to_dict t' = (OK (PDict items), t').
Proof.
  intros W. cbv zeta. inversion W as [|? Ks ND Wv]; subst.
  destruct (@build_children_of_items items) with (acc := @nil (string * Node))
    as (cs & B & E); auto.
  - rewrite Forall_forall. intros [k v] I nm. apply to_from_primitive.
    simpl. eapply Wv; eauto.
  - assert (L : load_dict (PDict items) t =
                (OK tt, mkTree (mkNode "root" cs None None) (strict_mode t))).
    { unfold load_dict, bind, put_root.
      erewrite load_items_build by (simpl; exact B). reflexivity. }
    unfold after. rewrite L. split; [reflexivity|].
    rewrite to_dict_items. simpl. now rewrite E.
Qed.

Lemma load_dict_then_to_dict_witness :
  let data := [(KStr "a", PDict [(KStr "b", PScalar (SInt 1))]);
               (KStr "e", PDict [])] in
  let t' := after (load_dict (PDict data)) (ConfigTree_init true) in
  to_dict t' = (OK (PDict data), t').
Proof.
  cbv zeta. apply load_dict_then_to_dict.
  constructor.
  - intros k [<-|[<-|[]]]; simpl; eauto.
  - constructor; [simpl; intros [E|[]]; discriminate E|].
    constructor; [intros []|constructor].
  - intros k v [E|[E|[]]]; inversion E; subst.
    + constructor.
      * intros k' [<-|[]]; simpl; eauto.
      * constructor; [intros []|constructor].
      * intros k' v' [E'|[]]; inversion E'; subst. constructor.
    + constructor.
      * intros k' [].
      * constructor.
      * intros k' v' [].
Defined.

(** X19. Export then import.  For a tree whose child names are distinct
    under every node (as in any Python dict), loading what [to_dict]
    returned, into any tree, succeeds and gives a tree with the same
    [to_dict]. *)
Theorem to_dict_then_load_dict (t s : ConfigTree) :
  wf (root t) ->
  exists m s',
    to_dict t = (OK m, t) /\
    load_dict m s = (OK tt, s') /\
    to_dict s' = (OK m, s').
Proof.
  intros W.
  destruct (@load_dict_to_dict t s (PDict (prim_of_children (children (root t)))))
    as (s' & L & T); auto.
  - unfold outcome. now rewrite to_dict_items.
  - exists (PDict (prim_of_children (children (root t)))), s'.
    split; [apply to_dict_items|]. split; [exact L|].
    unfold outcome in T. rewrite to_dict_items in *. simpl in T.
    now inversion T.
Qed.

Lemma to_dict_then_load_dict_witness :
  let t := after (set (Some "a.b") (SInt 1)) (ConfigTree_init false) in
  exists m s',
    to_dict t = (OK m, t) /\
    load_dict m (ConfigTree_init true) = (OK tt, s') /\
    to_dict s' = (OK m, s').
Proof.
  apply to_dict_then_load_dict.
  apply set_preserves_wf, wf_fresh.
Defined.

(** ** The invariant under the other operations *)

Lemma set_preserves_mutex_witness :
  let t := after (set (Some "a.b") (SInt 1)) (ConfigTree_init false) in
  mutex (root (after (set (Some "a.c.d") (SStr "x")) t)) = true.
Proof.
  apply set_preserves_mutex with (parts := ["a"; "c"; "d"]); reflexivity.
Defined.

Lemma delete_preserves_mutex_witness :
  let t := after (set (Some "a.b") (SInt 1)) (ConfigTree_init false) in
  mutex (root (after (delete (Some "a.b")) t)) = true.
Proof. apply delete_preserves_mutex. reflexivity. Defined.

Lemma build_children_mutex items :
  Forall (fun kv => forall nm n, from_primitive nm (snd kv) = OK n ->
                                 mutex n = true) items ->
  forall acc cs,
    forallb (fun kc => mutex (snd kc)) acc = true ->
    build_children from_primitive items acc = OK cs ->
    forallb (fun kc => mutex (snd kc)) cs = true.
Proof.
  induction 1 as [|[k v] items Hv _ IH]; intros acc cs A; simpl.
  - intros H. inversion H; subst. exact A.
  - destruct k as [k|z]; [|discriminate].
    destruct (from_primitive k v) as [c|e] eqn:Fc; [|discriminate].
    apply IH. apply (forallb_dict_set (fun n => mutex n)); auto.
    eapply Hv. exact Fc.
Qed.

(** What the conversion builds satisfies the invariant. *)
Lemma from_primitive_mutex d :
  forall nm n, from_primitive nm d = OK n -> mutex n = true.
Proof.
  induction d as [s|items IH] using prim_nested_ind; intros nm n; simpl.
  - intros H. inversion H. reflexivity.
  - destruct (build_children from_primitive items []) as [cs|e] eqn:B;
      [|discriminate].
    intros H. inversion H; subst. rewrite mutex_unfold.
    apply andb_true_iff. split.
    + unfold node_ok. simpl. now destruct cs.
    + simpl. eapply build_children_mutex; [exact IH| |exact B]. reflexivity.
Qed.

Lemma load_items_mutex items t :
  value (root t) = None -> mutex (root t) = true ->
  value (root (snd (load_items items t))) = None /\
  mutex (root (snd (load_items items t))) = true.
Proof.
  revert t. induction items as [|[k v] r IH]; intros t V Mt; simpl; auto.
  destruct k as [k|z]; [|simpl; auto].
  unfold bind, lift, get_root, put_root.
  destruct (from_primitive k v) as [c|e] eqn:Fc; [|simpl; auto].
  apply IH; simpl; auto.
  apply mutex_with_child; auto. eapply from_primitive_mutex; eauto.
Qed.

(** X22. Whatever tree it starts from, and whether it succeeds or raises at
    some key, [load_dict] on a mapping leaves a tree in which no node has
    both a value and children. *)
Theorem load_dict_establishes_mutex (items : list (pykey * prim))
        (t : ConfigTree) :
  mutex (root (after (load_dict (PDict items)) t)) = true.
Proof.
  unfold after, load_dict, bind, put_root. simpl.
  now apply load_items_mutex.
Qed.


(** ** Keys that no path can name *)



(** ** The codec decodes what it encodes *)

Lemma to_N_byte_of_N n :
  (n < 256)%N -> Byte.to_N (Codec.byte_of_N n) = n.
Proof.
  intros H. unfold Codec.byte_of_N. destruct (Byte.of_N n) as [b|] eqn:E.
  - now apply Byte.to_of_N.
  - apply Byte.of_N_None_iff in E. lia.
Qed.

Lemma dec_enc_nat_fuel fuel :
  forall n r,
    (n < 2 ^ (N.of_nat fuel + 7))%N ->
    Codec.dec_nat (Codec.enc_nat_fuel fuel n ++ r) = Some (n, r).
Proof.
  induction fuel as [|f IH]; intros n r H.
  - change (2 ^ (N.of_nat 0 + 7))%N with 128%N in H.
    cbn [Codec.enc_nat_fuel app Codec.dec_nat].
    rewrite to_N_byte_of_N by lia.
    now apply N.ltb_lt in H as ->.
  - cbn [Codec.enc_nat_fuel].
    destruct (n <? 128)%N eqn:L.
    + cbn [app Codec.dec_nat]. apply N.ltb_lt in L.
      rewrite to_N_byte_of_N by lia.
      now apply N.ltb_lt in L as ->.
    + apply N.ltb_ge in L.
      assert (Q : (n / 128 < 2 ^ (N.of_nat f + 7))%N).
      { apply N.Div0.div_lt_upper_bound.
        replace (N.of_nat (S f) + 7)%N with (N.succ (N.of_nat f + 7)) in H
          by lia.
        rewrite N.pow_succ_r' in H. lia. }
      pose proof (N.mod_lt n 128 ltac:(discriminate)) as M.
      pose proof (N.div_mod' n 128) as E.
      set (m := (n mod 128)%N) in *. set (q := (n / 128)%N) in *.
      clearbody m q.
      cbn [app Codec.dec_nat]. rewrite to_N_byte_of_N by lia.
      assert (G : (128 + m <? 128)%N = false) by (apply N.ltb_ge; lia).
      rewrite G, (IH q r Q).
      f_equal. f_equal. lia.
Qed.

Lemma dec_enc_nat n r :
  Codec.dec_nat (Codec.enc_nat n ++ r) = Some (n, r).
Proof.
  unfold Codec.enc_nat. apply dec_enc_nat_fuel.
  rewrite N2Nat.id. destruct (N.eq_dec n 0) as [->|NZ].
  - reflexivity.
  - pose proof (N.log2_spec n ltac:(lia)) as [_ U].
    eapply N.lt_le_trans; [exact U|].
    apply N.pow_le_mono_r; lia.
Qed.

Lemma dec_enc_Z z r : Codec.dec_Z (Codec.enc_Z z ++ r) = Some (z, r).
Proof.
  unfold Codec.enc_Z. destruct (z <? 0)%Z eqn:L;
    cbn [app Codec.dec_Z]; rewrite dec_enc_nat, N2Z.inj_abs_N;
    f_equal; f_equal.
  - apply Z.ltb_lt in L. lia.
  - apply Z.ltb_ge in L. lia.
Qed.

Lemma take_app l r : Codec.take (length l) (l ++ r) = Some (l, r).
Proof.
  induction l as [|b l IH]; [reflexivity|].
  cbn [length app Codec.take]. now rewrite IH.
Qed.

Lemma dec_enc_str s r : Codec.dec_str (Codec.enc_str s ++ r) = Some (s, r).
Proof.
  unfold Codec.enc_str, Codec.dec_str.
  rewrite <- app_assoc, dec_enc_nat, Nat2N.id, take_app.
  now rewrite string_of_list_byte_of_string.
Qed.

Lemma dec_enc_key k r : Codec.dec_key (Codec.enc_key k ++ r) = Some (k, r).
Proof.
  destruct k as [s|z]; cbn [Codec.enc_key app Codec.dec_key].
  - now rewrite dec_enc_str.
  - now rewrite dec_enc_Z.
Qed.

Lemma dec_enc_entries dec items :
  Forall (fun kv => forall r,
              dec (Codec.encode (snd kv) ++ r) = Some (snd kv, r)) items ->
  forall r,
    Codec.dec_entries dec (length items)
      (flat_map (fun kv => Codec.enc_key (fst kv) ++ Codec.encode (snd kv))
                items ++ r) = Some (items, r).
Proof.
  induction 1 as [|[k v] items Hv _ IH]; intros r; [reflexivity|].
  cbn [length flat_map Codec.dec_entries fst snd].
  rewrite <- !app_assoc, dec_enc_key. simpl in Hv. rewrite Hv.
  now rewrite IH.
Qed.

Lemma fold_max_le (items : list (pykey * prim)) kv :
  In kv items ->
  Codec.height (snd kv) <=
  fold_right (fun kv h => Nat.max (Codec.height (snd kv)) h) 0 items.
Proof.
  induction items as [|x items IH]; [intros []|].
  intros [->|I]; simpl; [lia|]. specialize (IH I). lia.
Qed.

(** Decoding with fuel for the nesting gives back the value and leaves what
    follows it. *)
Lemma decode_encode m :
  forall fuel r,
    Codec.height m <= fuel ->
    Codec.decode fuel (Codec.encode m ++ r) = Some (m, r).
Proof.
  induction m as [v|items IH] using prim_nested_ind; intros fuel r H.
  - destruct fuel as [|f]; [simpl in H; lia|].
    destruct v as [s|z|bits|b|]; cbn [Codec.encode Codec.enc_scalar app Codec.decode].
    + now rewrite dec_enc_str.
    + now rewrite dec_enc_Z.
    + now rewrite dec_enc_Z.
    + now destruct b.
    + reflexivity.
  - destruct fuel as [|f]; [simpl in H; lia|].
    cbn [Codec.height] in H.
    cbn [Codec.encode app Codec.decode].
    rewrite <- app_assoc, dec_enc_nat, Nat2N.id.
    rewrite dec_enc_entries; [reflexivity|].
    rewrite Forall_forall in *. intros kv I r'. apply IH; auto.
    pose proof (fold_max_le items kv I). lia.
Qed.

(** A value nested [n] deep takes at least [n] bytes. *)
Lemma height_le_length m : Codec.height m <= length (Codec.encode m).
Proof.
  induction m as [v|items IH] using prim_nested_ind.
  - destruct v; simpl; lia.
  - cbn [Codec.height Codec.encode length]. rewrite length_app.
    apply le_n_S.
    assert (B : fold_right (fun kv h => Nat.max (Codec.height (snd kv)) h) 0 items
                <= length (flat_map (fun kv => Codec.enc_key (fst kv) ++
                                               Codec.encode (snd kv)) items)).
    { induction IH as [|kv items Hkv _ IHitems]; [simpl; lia|].
      cbn [fold_right flat_map]. rewrite !length_app. lia. }
    lia.
Qed.

(** The contract of the codec: [load] gives back what [save] was given,
    whatever the mapping. *)
Lemma codec_load_save m : Codec.load (Codec.save m) = OK m.
Proof.
  unfold Codec.load, Codec.save.
  rewrite <- (app_nil_r (Codec.encode m)) at 2.
  now rewrite decode_encode by apply height_le_length.
Qed.

(** ** The persistence round trip *)

(** Children with the same projection answer a lookup alike. *)
Lemma dict_get_same_projection k cs :
  forall cs',
    prim_of_children cs' = prim_of_children cs ->
    match PyDict.get k cs', PyDict.get k cs with
    | Some c', Some c => to_primitive c' = to_primitive c
    | None, None => True
    | _, _ => False
    end.
Proof.
  induction cs as [|[k1 c1] cs IH]; intros [|[k1' c1'] cs'] E;
    try discriminate E; [exact I|].
  simpl in E. inversion E as [[Ek Ec Er]]. subst k1'. simpl.
  destruct (String.eqb k k1); [exact Ec|].
  apply IH. exact Er.
Qed.

(** Nodes with the same projection have children with the same
    projection. *)
Lemma same_projection_children n n' :
  to_primitive n' = to_primitive n ->
  prim_of_children (children n') = prim_of_children (children n).
Proof.
  intros E.
  destruct (children n) as [|c cs] eqn:C; destruct (children n') as [|c' cs'] eqn:C';
    try reflexivity.
  - rewrite (to_primitive_interior n') in E by congruence.
    destruct n as [nm ch v ty]. simpl in C. subst ch. simpl in E.
    rewrite C' in E. destruct v; discriminate E.
  - rewrite (to_primitive_interior n) in E by congruence.
    destruct n' as [nm ch v ty]. simpl in C'. subst ch. simpl in E.
    rewrite C in E. destruct v; discriminate E.
  - rewrite (to_primitive_interior n), (to_primitive_interior n') in E
      by congruence.
    rewrite C, C' in E. injection E as Ek Ec Er.
    unfold prim_of_children. cbn [map]. unfold prim_of_children in Er.
    now rewrite Ek, Ec, Er.
Qed.

(** Below nodes with the same projection, every address resolves alike. *)
Lemma deref_same_projection rest :
  forall k n n',
    prim_of_children (children n') = prim_of_children (children n) ->
    option_map to_primitive (deref (k :: rest) n') =
    option_map to_primitive (deref (k :: rest) n).
Proof.
  induction rest as [|k2 rest IH]; intros k n n' E;
    pose proof (dict_get_same_projection k _ _ E) as G; cbn [deref].
  - destruct (PyDict.get k (children n')), (PyDict.get k (children n));
      try contradiction; simpl; congruence.
  - destruct (PyDict.get k (children n')) as [c'|],
             (PyDict.get k (children n)) as [c|]; try contradiction; auto.
    apply IH. now apply same_projection_children.
Qed.

(** Trees with the same [to_dict] answer every [get] alike. *)
Lemma get_same_to_dict t s :
  outcome to_dict s = outcome to_dict t ->
  forall path, outcome (get path) s = outcome (get path) t.
Proof.
  unfold outcome. rewrite !to_dict_items. cbn [fst]. intros E path.
  inversion E as [E']; clear E.
  destruct (_split path) as [parts|e] eqn:S.
  - destruct (_split_some _ S) as [p ->].
    rewrite !(get_spec _ _ S). cbn [fst].
    destruct parts as [|k rest].
    { apply _split_nonempty in S. discriminate. }
    pose proof (deref_same_projection rest k _ _ E') as D.
    destruct (deref (k :: rest) (root s)), (deref (k :: rest) (root t));
      simpl in D; congruence.
  - unfold get, _walk, bind, lift. now rewrite S.
Qed.

Lemma get_after_set p v w t t' :
  set (Some p) v t = (OK w, t') ->
  outcome (get (Some p)) t' = OK (PScalar v).
Proof.
  intros H. apply set_ok_inv in H.
  destruct H as (parts & n' & x & S & D & _ & ->).
  unfold outcome. erewrite get_spec by eassumption. cbn [root fst].
  now rewrite deref_update, D.
Qed.

(** Saving a tree and loading the bytes into any tree gives a tree with the
    same [to_dict]. *)
Lemma persistence_round_trip t s :
  wf (root t) ->
  exists m s',
    to_dict t = (OK m, t) /\
    save_to_bin Codec.save t = (OK (Codec.save m), t) /\
    load_from_bin Codec.load (Codec.save m) s = (OK tt, s') /\
    to_dict s' = (OK m, s').
Proof.
  intros W.
  pose (m := PDict (prim_of_children (children (root t)))).
  destruct (@load_dict_to_dict t s m W) as (s' & L & T).
  { unfold outcome. now rewrite to_dict_items. }
  exists m, s'. split; [apply to_dict_items|]. split; [|split].
  - unfold save_to_bin, bind, ret. now rewrite to_dict_items.
  - unfold load_from_bin, bind, lift. now rewrite codec_load_save.
  - unfold outcome in T. rewrite to_dict_items in *. simpl in T.
    f_equal. exact T.
Qed.

(** C3.  A lenient tree is built from the empty one by four successful
    [set]s, of a string, an integer, a boolean and a float; it is saved
    through the codec, and the bytes are loaded into a fresh tree (of either
    policy).  The load succeeds and [to_dict()] of the loaded tree is the
    mapping [to_dict()] gave for the original: the same keys, nesting and
    scalars, each of the kind it had.  The loaded tree answers every [get]
    as the original does, and its leaf at the last path set holds the
    float. *)
Theorem binary_persistence_round_trip
        (p1 p2 p3 p4 : string) (s : string) (i : Z) (b : bool) (f : Z)
        (t1 t2 t3 t4 : ConfigTree) (strict' : bool) :
  set (Some p1) (SStr s) (ConfigTree_init false) = (OK (SStr s), t1) ->
  set (Some p2) (SInt i) t1 = (OK (SInt i), t2) ->
  set (Some p3) (SBool b) t2 = (OK (SBool b), t3) ->
  set (Some p4) (SFloat f) t3 = (OK (SFloat f), t4) ->
  exists m bytes t',
    to_dict t4 = (OK m, t4) /\
    save_to_bin Codec.save t4 = (OK bytes, t4) /\
    load_from_bin Codec.load bytes (ConfigTree_init strict') = (OK tt, t') /\
    to_dict t' = (OK m, t') /\
    (forall path, outcome (get path) t' = outcome (get path) t4) /\
    outcome (get (Some p4)) t' = OK (PScalar (SFloat f)).
Proof.
  intros H1 H2 H3 H4.
  assert (W : wf (root t4)).
  { replace t4 with (after (set (Some p4) (SFloat f)) t3)
      by (unfold after; now rewrite H4).
    apply set_preserves_wf.
    replace t3 with (after (set (Some p3) (SBool b)) t2)
      by (unfold after; now rewrite H3).
    apply set_preserves_wf.
    replace t2 with (after (set (Some p2) (SInt i)) t1)
      by (unfold after; now rewrite H2).
    apply set_preserves_wf.
    replace t1 with (after (set (Some p1) (SStr s)) (ConfigTree_init false))
      by (unfold after; now rewrite H1).
    apply set_preserves_wf, wf_fresh. }
  destruct (@persistence_round_trip t4 (ConfigTree_init strict') W)
    as (m & t' & T4 & Sv & Ld & T').
  assert (G : forall path, outcome (get path) t' = outcome (get path) t4).
  { apply get_same_to_dict. unfold outcome. now rewrite T4, T'. }
  exists m, (Codec.save m), t'. repeat split; auto.
  rewrite G. eapply get_after_set; eauto.
Qed.

Lemma binary_persistence_round_trip_witness :
  let t1 := after (set (Some "server.name") (SStr "Alpha")) (ConfigTree_init false) in
  let t2 := after (set (Some "server.port") (SInt 8080)) t1 in
  let t3 := after (set (Some "server.active") (SBool true)) t2 in
  let t4 := after (set (Some "server.load") (SFloat 4631600373029666816)) t3 in
  exists m bytes t',
    to_dict t4 = (OK m, t4) /\
    save_to_bin Codec.save t4 = (OK bytes, t4) /\
    load_from_bin Codec.load bytes (ConfigTree_init false) = (OK tt, t') /\
    to_dict t' = (OK m, t') /\
    (forall path, outcome (get path) t' = outcome (get path) t4) /\
    outcome (get (Some "server.load")) t' =
      OK (PScalar (SFloat 4631600373029666816)).
Proof.
  cbv zeta.
  eapply (@binary_persistence_round_trip
            "server.name" "server.port" "server.active" "server.load"
            "Alpha" 8080%Z true 4631600373029666816%Z);
    reflexivity.
Defined.

(** ** White space beyond ASCII *)

(** NO-BREAK SPACE is stripped like a space.  As a path of its own it is
    rejected; as a middle segment it is kept by [_split], is not a plain
    segment, and is lost when [delete] normalises the parent path again, so
    that [delete("a.<NBSP>.b")] removes ["a.b"]. *)
Example nbsp_segment_example :
  let nbsp := String "194" (String "160" "") in
  let p := ("a." ++ nbsp ++ ".b")%string in
  let t := after (set (Some "a.b") (SInt 1)) (ConfigTree_init false) in
  _split (Some nbsp) =
    Raise (ConfigInvalidPathError nbsp "Path cannot be empty.") /\
  _split (Some p) = OK ["a"; nbsp; "b"] /\
  plain_segment nbsp = false /\
  parent_addr ["a"; nbsp; "b"] = OK ["a"] /\
  outcome (delete (Some p)) t = OK true /\
  outcome (get (Some "a.b")) (after (delete (Some p)) t) =
    Raise (ConfigPathNotFoundError "a.b").
Proof. cbv zeta. repeat split; reflexivity. Qed.
